(** * caddy-trojan: the connection sniffer of [modules/listener/listener.go]

    A shallow embedding of [Listener] (its [Accept], its [Close] and the
    per-connection unit of work that [loop] starts for every accepted
    connection), together with the properties the specification states
    about them.

    Modelling conventions.
    - A [net.Conn] is the finite script of results its next one-byte
      [Read] calls return; once the script is exhausted the peer has
      closed and [Read] returns [(0, io.EOF)].
    - Channels are their contents: [conns] (capacity 8) is the list of
      queued connections, [closed] is a flag that is set once the channel
      has been closed.
    - A unit of work touches the listener only in its last steps (logging,
      the [select] on [closed], the send on [conns], the ledger calls), so
      the listener state it is given is the state at that moment.
    - The packages [app], [trojan], [rawconn] and [x] are not part of the
      sources at hand: [app.Upstream] and the [trojan] package are
      interfaces (type classes), [rawconn.RewindConn] and
      [x.ByteSliceToString] are modelled from the specification. *)

From Stdlib Require Import ZArith Lia.
From Stdlib Require Strings.String.
From Stdlib Require Import Strings.Byte.
From stdpp Require Import base strings list gmap.

Local Open Scope Z_scope.
Local Open Scope nat_scope.

(** ** Bytes *)

#[global] Instance byte_eq_decision : EqDecision byte := Byte.byte_eq_dec.

#[global] Instance byte_countable : Countable byte :=
  inj_countable Byte.to_N Byte.of_N Byte.of_to_N.

(** ** Errors *)

(** Go [error] values: the two sentinels the listener tests for or returns,
    any other error, and an error wrapping another one. *)
Inductive error : Type :=
| io_EOF
| os_ErrClosed
| errorString (msg : String.string)
| wrapError (msg : String.string) (inner : error).

(** [errors.Is(err, io.EOF)]: follows the chain of wrapped errors. *)
Fixpoint errors_Is_EOF (err : error) : bool :=
  match err with
  | io_EOF => true
  | wrapError _ inner => errors_Is_EOF inner
  | _ => false
  end.

(** ** Connections *)

(** The result of [c.Read(p)] with [len(p) = 1]: [rr_byte = Some x] when
    [nr = 1] and [x] was stored in [p[0]], [None] when [nr = 0] (then [p]
    is left as it was); [rr_err] is the returned error, [None] for [nil].
    The [io.Reader] contract allows every combination. *)
Record ReadResult : Type := mkRead {
  rr_byte : option byte;
  rr_err : option error
}.

Record Conn : Type := mkConn {
  c_reads : list ReadResult;
  c_closed : bool;
  c_RemoteAddr : String.string;
  c_LocalAddr : String.string
}.

Definition Conn_Read (c : Conn) : ReadResult * Conn :=
  match c_reads c with
  | [] => (mkRead None (Some io_EOF), c)
  | r :: rest =>
      (r, mkConn rest (c_closed c) (c_RemoteAddr c) (c_LocalAddr c))
  end.

Definition Conn_Close (c : Conn) : Conn :=
  mkConn (c_reads c) true (c_RemoteAddr c) (c_LocalAddr c).

(** The bytes a connection delivers to whoever keeps reading it. *)
Fixpoint conn_stream (rs : list ReadResult) : list byte :=
  match rs with
  | [] => []
  | r :: rest =>
      match rr_byte r with
      | Some x => x :: conn_stream rest
      | None => conn_stream rest
      end
  end.

(** Modelled from the spec: [rawconn.RewindConn] is not under src/. Section
    4.1: it is built from an underlying stream and a byte sequence already
    read from it; reading it first yields the prefix and then delegates to
    the underlying stream. *)
Record RewoundConn : Type := RewindConn {
  rc_conn : Conn;
  rc_prefix : list byte
}.

(** Modelled from the spec: what a consumer of the rewound connection
    observes (section 4.1: the prefix, then the underlying reads). *)
Definition rewound_stream (rc : RewoundConn) : list byte :=
  rc_prefix rc ++ conn_stream (c_reads (rc_conn rc)).

(** Modelled from the spec: [x.ByteSliceToString] is not under src/; a Go
    string is an immutable byte sequence and the conversion keeps the
    bytes. *)
Abbreviation gostring := (list byte) (only parsing).

Definition ByteSliceToString (b : list byte) : gostring := b.

(** ** The collaborators *)

(** [app.Upstream], the credential ledger, as far as the listener uses it. *)
Class Upstream (U : Type) : Type := {
  Validate : U -> gostring -> bool;
  Consume : U -> gostring -> Z -> Z -> U
}.

(** The [trojan] package, as far as the listener uses it: the constant
    [HeaderLen] and [HandleWithDialer(r, w, dialer)], which reads and
    writes the connection and returns [(nr, nw, err)]. *)
Class Trojan (P : Type) : Type := {
  HeaderLen : nat;
  HandleWithDialer : Conn -> P -> Z * Z * option error * Conn
}.

(** What the listener writes to its [zap.Logger]. *)
Inductive log_entry : Type :=
| Error_read_prefix_EOF (remote local : String.string) (err : error)
| Error_read_prefix_rewind (err : error)
| Info_handle_trojan (remote : String.string)
| Error_handle (err : error).

(** The wrapped [net.Listener]: the connections it has yet to hand out and
    whether it has been closed. *)
Record NetListener : Type := mkNetListener {
  nl_backlog : list Conn;
  nl_closed : bool
}.

(** ** The listener *)

Record Listener (U P : Type) : Type := mkListener {
  l_Verbose : bool;
  l_Listener : NetListener;
  l_Upstream : U;
  l_Proxy : P;
  l_Logger : list log_entry;
  l_conns : list RewoundConn;
  l_closed : bool
}.

Arguments mkListener {U P}.
Arguments l_Verbose {U P}.
Arguments l_Listener {U P}.
Arguments l_Upstream {U P}.
Arguments l_Proxy {U P}.
Arguments l_Logger {U P}.
Arguments l_conns {U P}.
Arguments l_closed {U P}.

(** [make(chan net.Conn, 8)] *)
Definition conns_cap : nat := 8.

Definition NewListener {U P : Type}
    (ln : NetListener) (up : U) (px : P) (logger : list log_entry)
  : Listener U P :=
  mkListener false ln up px logger [] false.

Definition set_Verbose {U P} (l : Listener U P) (v : bool) : Listener U P :=
  mkListener v (l_Listener l) (l_Upstream l) (l_Proxy l) (l_Logger l)
    (l_conns l) (l_closed l).

Definition set_conns {U P} (l : Listener U P) (q : list RewoundConn)
  : Listener U P :=
  mkListener (l_Verbose l) (l_Listener l) (l_Upstream l) (l_Proxy l)
    (l_Logger l) q (l_closed l).

Definition set_closed {U P} (l : Listener U P) (b : bool) : Listener U P :=
  mkListener (l_Verbose l) (l_Listener l) (l_Upstream l) (l_Proxy l)
    (l_Logger l) (l_conns l) b.

Definition set_Upstream {U P} (l : Listener U P) (up : U) : Listener U P :=
  mkListener (l_Verbose l) (l_Listener l) up (l_Proxy l) (l_Logger l)
    (l_conns l) (l_closed l).

(** [lg.Error(...)] and [lg.Info(...)]: the entry is appended to the log. *)
Definition log {U P} (l : Listener U P) (e : log_entry) : Listener U P :=
  mkListener (l_Verbose l) (l_Listener l) (l_Upstream l) (l_Proxy l)
    (l_Logger l ++ [e]) (l_conns l) (l_closed l).

(** [ListenerWrapper], without the fields used only for provisioning. *)
Record ListenerWrapper (U P : Type) : Type := mkListenerWrapper {
  w_upstream : U;
  w_proxy : P;
  w_logger : list log_entry;
  w_Verbose : bool
}.

Arguments mkListenerWrapper {U P}.
Arguments w_upstream {U P}.
Arguments w_proxy {U P}.
Arguments w_logger {U P}.
Arguments w_Verbose {U P}.

(** [ListenerWrapper.WrapListener]: the listener it returns is the one
    whose accept loop it starts with [go ln.loop()]. *)
Definition WrapListener {U P} (m : ListenerWrapper U P) (ln : NetListener)
  : Listener U P :=
  set_Verbose (NewListener ln (w_upstream m) (w_proxy m) (w_logger m))
    (w_Verbose m).

(** What a call of [Accept] does. *)
Inductive accept_result : Type :=
| AcceptBlocks
| AcceptReturns (c : option RewoundConn) (err : option error).

(** [Listener.Accept]. A Go [select] blocks while no case can proceed and
    otherwise runs one of the cases that can, chosen pseudo-randomly:
    [pick_conns] is that choice when both the receive on [closed] and the
    receive on [conns] can proceed. *)
Definition Accept {U P} (l : Listener U P) (pick_conns : bool)
  : accept_result * Listener U P :=
  match l_closed l, l_conns l with
  | false, [] => (AcceptBlocks, l)
  | false, c :: q => (AcceptReturns (Some c) None, set_conns l q)
  | true, [] => (AcceptReturns None (Some os_ErrClosed), l)
  | true, c :: q =>
      if pick_conns
      then (AcceptReturns (Some c) None, set_conns l q)
      else (AcceptReturns None (Some os_ErrClosed), l)
  end.

(** [Listener.Close]: the receive on [closed] can proceed exactly when the
    channel has been closed; otherwise the default case closes it. *)
Definition Close {U P} (l : Listener U P) : option error * Listener U P :=
  if l_closed l then (None, l) else (None, set_closed l true).

(** ** The unit of work of one accepted connection *)

(** How a unit of work ends: it returned, it is parked on the send to a
    full [conns] channel, or it panicked on a slice out of range. *)
Inductive unit_end : Type :=
| Returned
| BlockedSending (rc : RewoundConn)
| Panicked.

(** [l.conns <- rc]: proceeds when the buffer has room, blocks otherwise. *)
Definition send_conns {U P} (l : Listener U P) (c : Conn) (rc : RewoundConn)
  : Listener U P * Conn * unit_end :=
  if length (l_conns l) <? conns_cap
  then (set_conns l (l_conns l ++ [rc]), c, Returned)
  else (l, c, BlockedSending rc).

(** [select { case <-l.closed: c.Close(); default: l.conns <- RewindConn(c, p) }]:
    with a default case the select never blocks; the receive is taken
    exactly when [closed] has been closed. *)
Definition select_closed_or_send {U P}
    (l : Listener U P) (c : Conn) (p : list byte)
  : Listener U P * Conn * unit_end :=
  if l_closed l
  then (l, Conn_Close c, Returned)
  else send_conns l c (RewindConn c p).

(** The header loop either ends the unit of work or runs to its bound. *)
Inductive scan (U P : Type) : Type :=
| Exit (r : Listener U P * Conn * unit_end)
| Fall (b : list byte) (c : Conn) (l : Listener U P).

Arguments Exit {U P}.
Arguments Fall {U P}.

(** [for n := 0; n < trojan.HeaderLen+2; n += 1 { ... }], started at [n]
    with [rem] iterations to go ([rem = HeaderLen + 2 - n]). *)
Fixpoint header_loop {U P} `{Trojan P}
    (rem n : nat) (b : list byte) (c : Conn) (l : Listener U P)
  : scan U P :=
  match rem with
  | 0 => Fall b c l
  | S rem' =>
      if length b <? n + 1 then Exit (l, c, Panicked) else
      let '(r, c1) := Conn_Read c in
      let b1 := match rr_byte r with Some x => <[n:=x]> b | None => b end in
      match rr_err r with
      | Some err =>
          if errors_Is_EOF err then
            let l1 := log l (Error_read_prefix_EOF
                               (c_RemoteAddr c1) (c_LocalAddr c1) err) in
            Exit (l1, Conn_Close c1, Returned)
          else
            let l1 := log l (Error_read_prefix_rewind err) in
            Exit (send_conns l1 c1 (RewindConn c1 (take (n + 1) b1)))
      | None =>
          match rr_byte r with
          | None => header_loop rem' (n + 1) b1 c1 l
          | Some _ =>
              if bool_decide (b1 !! n = Some x0a) && (n <? HeaderLen + 1)
              then Exit (select_closed_or_send l c1 (take (n + 1) b1))
              else header_loop rem' (n + 1) b1 c1 l
          end
      end
  end.

(** The function that [loop] starts with [go] for every accepted
    connection [c]; [lg] and [up] are the listener's logger and ledger. *)
Definition loop_conn {U P} `{Upstream U} `{Trojan P}
    (l : Listener U P) (c : Conn)
  : Listener U P * Conn * unit_end :=
  let b := replicate (HeaderLen + 2) x00 in
  match header_loop (HeaderLen + 2) 0 b c l with
  | Exit r => r
  | Fall b c l =>
      if length b <? HeaderLen then (l, c, Panicked) else
      let key := ByteSliceToString (take HeaderLen b) in
      if negb (Validate (l_Upstream l) key) then
        select_closed_or_send l c b
      else
        (* defer c.Close() *)
        let l1 :=
          if l_Verbose l
          then log l (Info_handle_trojan (c_RemoteAddr c))
          else l in
        let '(nr, nw, err, c1) := HandleWithDialer c (l_Proxy l1) in
        let l2 :=
          match err with
          | Some e => log l1 (Error_handle e)
          | None => l1
          end in
        let l3 := set_Upstream l2 (Consume (l_Upstream l2) key nr nw) in
        (l3, Conn_Close c1, Returned)
  end.

(** ** Observations used by the statements *)

Definition set_reads (c : Conn) (rs : list ReadResult) : Conn :=
  mkConn rs (c_closed c) (c_RemoteAddr c) (c_LocalAddr c).

(** A read that delivers one byte and no error. *)
Definition one_byte (x : byte) : ReadResult := mkRead (Some x) None.

(** A read that delivers nothing and no error: [(0, nil)]. *)
Definition zero_read : ReadResult := mkRead None None.

(** What a run of reads leaves in a zeroed buffer, one position per read. *)
Definition header_bytes (evs : list ReadResult) : list byte :=
  map (fun r => default x00 (rr_byte r)) evs.

(** The reads the header loop passes over, counted from position [n]: no
    error, and no line feed delivered at a position below
    [HeaderLen + 1]. *)
Fixpoint passes {P} `{Trojan P} (n : nat) (evs : list ReadResult) : bool :=
  match evs with
  | [] => true
  | r :: evs' =>
      match rr_err r with
      | Some _ => false
      | None =>
          negb (bool_decide (rr_byte r = Some x0a) && (n <? HeaderLen + 1))
          && passes (n + 1) evs'
      end
  end.

(** The unit of work with result [r], started on listener [l], handed the
    rewound connection [rc] to the pending queue: it enqueued it, or it is
    parked on the send. *)
Definition hands_over {U P}
    (l : Listener U P) (r : Listener U P * Conn * unit_end)
    (rc : RewoundConn) : Prop :=
  l_conns (r.1.1) = l_conns l ++ [rc] \/ r.2 = BlockedSending rc.

(** ** Sample collaborators and inputs *)

(** Modelled from the spec: the ledger behind [app.Upstream] is not under
    src/. Section 4.4: [validate] is a membership test; [consume] adds to
    the counters of a present key and does nothing for an absent one; the
    counters are unsigned 64-bit. *)
#[global] Instance Ledger_Upstream : Upstream (gmap gostring (Z * Z)) := {
  Validate led k := bool_decide (is_Some (led !! k));
  Consume led k up down :=
    match led !! k with
    | Some (u, d) =>
        <[k := ((u + up) mod 2 ^ 64, (d + down) mod 2 ^ 64)%Z]> led
    | None => led
    end
}.

(** Modelled from the spec: the [trojan] package is not under src/.
    Section 3 gives [HeaderLen = 56]; of section 4.3 this stand-in keeps the
    command byte only: command 0x01 relays what the client still sends and
    counts it, anything else is a decode error with no bytes counted. *)
#[global] Instance Sample_Trojan : Trojan unit := {
  HeaderLen := 56;
  HandleWithDialer c _ :=
    match c_reads c with
    | r :: rest =>
        if bool_decide (rr_byte r = Some x01)
        then (Z.of_nat (length (conn_stream rest)), 0%Z, None,
              set_reads c [])
        else (0%Z, 0%Z, Some (errorString "command error"%string),
              set_reads c rest)
    | [] => (0%Z, 0%Z, Some io_EOF, c)
    end
}.

Definition sample_key : gostring := replicate 56 x61.

Definition sample_ledger : gmap gostring (Z * Z) :=
  {[ sample_key := (0%Z, 0%Z) ]}.

Definition sample_listener : Listener (gmap gostring (Z * Z)) unit :=
  WrapListener (mkListenerWrapper sample_ledger tt [] false)
    (mkNetListener [] false).

Definition sample_conn (rs : list ReadResult) : Conn :=
  mkConn rs false "198.51.100.7:40000"%string "192.0.2.1:443"%string.

(** The bytes of ["GET / HTTP/1.0\r\n\r\n"]. *)
Definition http_request : list byte :=
  [x47; x45; x54; x20; x2f; x20; x48; x54; x54; x50; x2f; x31; x2e; x30;
   x0d; x0a; x0d; x0a].

(** A plain-text client: the first line feed is at position 15. *)
Definition http_conn : Conn := sample_conn (map one_byte http_request).

(** The same client behind a reader whose first read returns [(0, nil)]. *)
Definition zero_http_conn : Conn :=
  sample_conn (zero_read :: map one_byte http_request).

(** 58 bytes without a line feed that are no key of the sample ledger. *)
Definition unknown_header : list byte := replicate 58 x41.

Definition unknown_conn : Conn :=
  sample_conn (map one_byte (unknown_header ++ http_request)).

(** 57 such bytes and the request, after a first read that returns
    [(0, nil)]. *)
Definition zero_unknown_conn : Conn :=
  sample_conn (zero_read :: map one_byte (replicate 57 x41 ++ http_request)).

(** The sample key, the two bytes [x] and [y], the connect command and a
    payload. *)
Definition keyed_conn (x y : byte) : Conn :=
  sample_conn (map one_byte (sample_key ++ [x; y] ++ x01 :: http_request)).

(** A client whose first read fails with an error that is not
    end-of-stream and returns no byte. *)
Definition tls_error : error :=
  wrapError "read prefix" (errorString "tls: bad record MAC").

Definition failing_conn : Conn :=
  sample_conn (mkRead None (Some tls_error) :: map one_byte http_request).

(** A client that sends five bytes and closes. *)
Definition short_conn : Conn :=
  sample_conn (map one_byte [x47; x45; x54; x20; x2f]).

(** The sample listener after [Close]. *)
Definition closed_listener : Listener (gmap gostring (Z * Z)) unit :=
  (Close sample_listener).2.

(** The sample listener after the plain-text client was queued and
    [Close] was called. *)
Definition closed_listener_with_pending
  : Listener (gmap gostring (Z * Z)) unit :=
  (Close (loop_conn sample_listener http_conn).1.1).2.

(** * Properties *)

Section Properties.
Context {U P : Type} `{!Upstream U} `{!Trojan P}.

Implicit Types (l : Listener U P) (c : Conn) (b hb hdr : list byte).
Implicit Types (evs rest : list ReadResult) (rc : RewoundConn).

(** ** Connections and streams *)

Lemma Conn_Read_cons c r rest :
  c_reads c = r :: rest -> Conn_Read c = (r, set_reads c rest).
Proof. unfold Conn_Read. by intros ->. Qed.

Lemma Conn_Read_keeps c r c1 :
  Conn_Read c = (r, c1) ->
  c_RemoteAddr c1 = c_RemoteAddr c /\ c_LocalAddr c1 = c_LocalAddr c /\
  c_closed c1 = c_closed c.
Proof.
  unfold Conn_Read. destruct (c_reads c); intros [= <- <-]; done.
Qed.

Lemma set_reads_id c rest : c_reads c = rest -> set_reads c rest = c.
Proof. intros <-. by destruct c. Qed.

Lemma conn_stream_app evs rest :
  conn_stream (evs ++ rest) = conn_stream evs ++ conn_stream rest.
Proof.
  induction evs as [|r evs IH]; [done|].
  simpl. destruct (rr_byte r); simpl; by rewrite IH.
Qed.

Lemma conn_stream_one_byte hdr : conn_stream (map one_byte hdr) = hdr.
Proof. induction hdr as [|x hdr IH]; [done|]. simpl. by rewrite IH. Qed.

Lemma header_bytes_one_byte hdr : header_bytes (map one_byte hdr) = hdr.
Proof. induction hdr as [|x hdr IH]; [done|]. simpl. by rewrite IH. Qed.

Lemma length_header_bytes evs : length (header_bytes evs) = length evs.
Proof. apply length_map. Qed.

(** A connection that delivers [hdr] one byte per read: what is replayed
    in front of the remaining reads is the original stream. *)
Lemma rewound_stream_one_byte c hdr rest :
  c_reads c = map one_byte hdr ++ rest ->
  conn_stream (c_reads c) = hdr ++ conn_stream (c_reads (set_reads c rest)) /\
  rewound_stream (RewindConn (set_reads c rest) hdr)
  = conn_stream (c_reads c).
Proof.
  intros ->. unfold rewound_stream. simpl.
  by rewrite conn_stream_app, conn_stream_one_byte.
Qed.

(** ** The pending queue *)

Lemma hands_over_send l l1 c rc0 rc :
  l_conns l1 = l_conns l ->
  hands_over l (send_conns l1 c rc0) rc -> rc = rc0.
Proof.
  intros Hq. unfold hands_over, send_conns.
  destruct (length (l_conns l1) <? conns_cap); simpl; intros [H|H].
  - rewrite Hq in H. by apply app_inv_head in H as [= ->].
  - done.
  - rewrite Hq in H. apply (f_equal length) in H.
    rewrite length_app in H. simpl in H. lia.
  - by injection H as ->.
Qed.

Lemma send_hands_over l c rc : hands_over l (send_conns l c rc) rc.
Proof.
  unfold hands_over, send_conns.
  destruct (length (l_conns l) <? conns_cap); simpl; auto.
Qed.

Lemma hands_over_none l l1 c e rc :
  l_conns l1 = l_conns l -> (forall rc', e <> BlockedSending rc') ->
  ~ hands_over l (l1, c, e) rc.
Proof.
  intros Hq He [H|H]; simpl in H.
  - rewrite Hq in H. apply (f_equal length) in H.
    rewrite length_app in H. simpl in H. lia.
  - by apply (He rc).
Qed.

Lemma hands_over_select l c hb rc :
  hands_over l (select_closed_or_send l c hb) rc ->
  l_closed l = false /\ rc = RewindConn c hb.
Proof.
  unfold select_closed_or_send. destruct (l_closed l).
  - intros H. by apply hands_over_none in H.
  - intros H. split; [done|]. by apply hands_over_send in H.
Qed.

Lemma select_hands_over l c hb :
  l_closed l = false ->
  hands_over l (select_closed_or_send l c hb) (RewindConn c hb).
Proof.
  unfold select_closed_or_send. intros ->. apply send_hands_over.
Qed.

(** ** The header loop *)

Lemma passes_cons n r evs :
  passes n (r :: evs) = true ->
  rr_err r = None /\
  bool_decide (rr_byte r = Some x0a) && (n <? HeaderLen + 1) = false /\
  passes (n + 1) evs = true.
Proof.
  cbn [passes]. destruct (rr_err r); [done|].
  intros [Hlf Hp]%andb_true_iff. by apply negb_true_iff in Hlf.
Qed.

Lemma passes_one_byte hdr : forall n,
  (forall i, hdr !! i = Some x0a -> HeaderLen + 1 <= n + i) ->
  passes n (map one_byte hdr) = true.
Proof.
  induction hdr as [|x hdr IH]; intros n Hlf; [done|].
  cbn [map passes one_byte rr_err rr_byte].
  apply andb_true_iff. split.
  - apply negb_true_iff, andb_false_iff.
    destruct (decide (x = x0a)) as [->|Hx].
    + right. apply Nat.ltb_ge. specialize (Hlf 0 eq_refl). lia.
    + left. apply bool_decide_eq_false_2. congruence.
  - apply IH. intros i Hi. specialize (Hlf (S i) Hi). lia.
Qed.

Lemma passes_no_line_feed hdr m :
  x0a ∉ take m hdr -> length hdr <= m \/ HeaderLen + 1 <= m ->
  passes 0 (map one_byte hdr) = true.
Proof.
  intros Hnot Hm. apply passes_one_byte. intros i Hi.
  destruct (decide (i < m)) as [Hlt|Hge].
  - exfalso. apply Hnot. apply elem_of_take. eauto.
  - apply lookup_lt_Some in Hi. lia.
Qed.

(** One iteration, on a buffer whose part from [n] on is still zero. *)
Lemma header_loop_step rem n hb k c l r c1 :
  length hb = n -> Conn_Read c = (r, c1) ->
  header_loop (S rem) n (hb ++ replicate (S k) x00) c l =
    let b1 := hb ++ default x00 (rr_byte r) :: replicate k x00 in
    match rr_err r with
    | Some err =>
        if errors_Is_EOF err then
          Exit (log l (Error_read_prefix_EOF
                         (c_RemoteAddr c1) (c_LocalAddr c1) err),
                Conn_Close c1, Returned)
        else
          Exit (send_conns (log l (Error_read_prefix_rewind err)) c1
                  (RewindConn c1 (hb ++ [default x00 (rr_byte r)])))
    | None =>
        match rr_byte r with
        | None => header_loop rem (n + 1) b1 c1 l
        | Some x =>
            if bool_decide (x = x0a) && (n <? HeaderLen + 1)
            then Exit (select_closed_or_send l c1 (hb ++ [x]))
            else header_loop rem (n + 1) b1 c1 l
        end
    end.
Proof.
  intros Hn Hc. cbn [header_loop].
  assert ((length (hb ++ replicate (S k) x00) <? n + 1) = false) as ->.
  { apply Nat.ltb_ge. rewrite length_app, length_replicate. lia. }
  rewrite Hc.
  assert (Hins : forall x, <[n:=x]> (hb ++ replicate (S k) x00)
                           = hb ++ x :: replicate k x00).
  { intros x. rewrite insert_app_r_alt by lia.
    replace (n - length hb) with 0 by lia. done. }
  assert (Htake : forall x, take (n + 1) (hb ++ x :: replicate k x00)
                            = hb ++ [x]).
  { intros x. rewrite take_app_ge by lia.
    replace (n + 1 - length hb) with 1 by lia. done. }
  destruct r as [[x|] [e|]]; cbn [rr_byte rr_err default].
  - rewrite Hins, Htake. done.
  - rewrite Hins, list_lookup_middle by done.
    rewrite Htake.
    destruct (decide (x = x0a)) as [->|Hx].
    + rewrite !bool_decide_eq_true_2 by done. done.
    + rewrite !bool_decide_eq_false_2 by congruence. done.
  - change (replicate (S k) x00) with (x00 :: replicate k x00).
    rewrite Htake. done.
  - done.
Qed.

(** The loop can be cut at any iteration. *)
Lemma header_loop_app a : forall r n b c l,
  header_loop (a + r) n b c l =
    match header_loop a n b c l with
    | Exit x => Exit x
    | Fall b' c' l' => header_loop r (n + a) b' c' l'
    end.
Proof.
  induction a as [|a IH]; intros r n b c l.
  - cbn [header_loop Nat.add]. by rewrite Nat.add_0_r.
  - replace (n + S a) with (n + 1 + a) by lia.
    cbn [header_loop Nat.add].
    destruct (length b <? n + 1); [done|].
    destruct (Conn_Read c) as [ev c1].
    destruct (rr_err ev) as [e|].
    + by destruct (errors_Is_EOF e).
    + destruct (rr_byte ev) as [x|]; [|by apply IH].
      destruct (_ && _); [done|by apply IH].
Qed.

(** Reads that pass are stored one per position and nothing else
    happens. *)
Lemma header_loop_passes evs : forall n hb k c l rest,
  length hb = n -> c_reads c = evs ++ rest -> passes n evs = true ->
  header_loop (length evs) n (hb ++ replicate (length evs + k) x00) c l
  = Fall (hb ++ header_bytes evs ++ replicate k x00) (set_reads c rest) l.
Proof.
  induction evs as [|r evs IH]; intros n hb k c l rest Hn Hc Hp.
  - simpl in *. by rewrite (set_reads_id c rest).
  - apply passes_cons in Hp as (Herr & Hlf & Hp).
    cbn [length Nat.add].
    rewrite (header_loop_step _ n hb _ c l r (set_reads c (evs ++ rest)))
      by (done || by apply Conn_Read_cons).
    cbv zeta. rewrite Herr.
    assert (Hnext :
      header_loop (length evs) (n + 1)
        (hb ++ default x00 (rr_byte r) :: replicate (length evs + k) x00)
        (set_reads c (evs ++ rest)) l
      = Fall (hb ++ header_bytes (r :: evs) ++ replicate k x00)
          (set_reads c rest) l).
    { rewrite (cons_middle _ hb), app_assoc.
      rewrite (IH (n + 1) (hb ++ [default x00 (rr_byte r)]) k
                 (set_reads c (evs ++ rest)) l rest); [| |done|done].
      - by rewrite <- app_assoc.
      - rewrite length_app. simpl. lia. }
    destruct (rr_byte r) as [x|] eqn:Hx; [|exact Hnext].
    replace (bool_decide (x = x0a)) with (bool_decide (Some x = Some x0a)).
    + rewrite Hlf. exact Hnext.
    + apply bool_decide_ext. split; congruence.
Qed.

(** The loop of [loop_conn], after the reads [evs] have passed. *)
Lemma header_loop_reach evs k c l rest :
  c_reads c = evs ++ rest -> passes 0 evs = true ->
  length evs + k = HeaderLen + 2 ->
  header_loop (HeaderLen + 2) 0 (replicate (HeaderLen + 2) x00) c l
  = header_loop k (length evs) (header_bytes evs ++ replicate k x00)
      (set_reads c rest) l.
Proof.
  intros Hc Hp Hlen. rewrite <- Hlen, header_loop_app.
  pose proof (header_loop_passes evs 0 [] k c l rest eq_refl Hc Hp) as Hfall.
  simpl in Hfall. by rewrite Hfall.
Qed.

Lemma header_loop_full evs c l rest :
  c_reads c = evs ++ rest -> passes 0 evs = true ->
  length evs = HeaderLen + 2 ->
  header_loop (HeaderLen + 2) 0 (replicate (HeaderLen + 2) x00) c l
  = Fall (header_bytes evs) (set_reads c rest) l.
Proof.
  intros Hc Hp Hlen.
  rewrite (header_loop_reach evs 0 c l rest) by (done || lia).
  simpl. by rewrite app_nil_r.
Qed.

(** What the loop does with the read that follows the reads [evs]. *)
Lemma header_loop_next evs c l rest r c1 :
  c_reads c = evs ++ rest -> passes 0 evs = true ->
  length evs < HeaderLen + 2 ->
  Conn_Read (set_reads c rest) = (r, c1) ->
  header_loop (HeaderLen + 2) 0 (replicate (HeaderLen + 2) x00) c l =
    let n := length evs in
    let k := HeaderLen + 1 - n in
    let b1 := header_bytes evs ++ default x00 (rr_byte r)
                :: replicate k x00 in
    match rr_err r with
    | Some err =>
        if errors_Is_EOF err then
          Exit (log l (Error_read_prefix_EOF
                         (c_RemoteAddr c) (c_LocalAddr c) err),
                Conn_Close c1, Returned)
        else
          Exit (send_conns (log l (Error_read_prefix_rewind err)) c1
                  (RewindConn c1
                     (header_bytes evs ++ [default x00 (rr_byte r)])))
    | None =>
        match rr_byte r with
        | None => header_loop k (n + 1) b1 c1 l
        | Some x =>
            if bool_decide (x = x0a) && (n <? HeaderLen + 1)
            then Exit (select_closed_or_send l c1 (header_bytes evs ++ [x]))
            else header_loop k (n + 1) b1 c1 l
        end
    end.
Proof.
  intros Hc Hp Hlen Hread.
  rewrite (header_loop_reach evs (S (HeaderLen + 1 - length evs)) c l rest)
    by (done || lia).
  rewrite (header_loop_step _ (length evs) _ _ _ l r c1)
    by (done || apply length_header_bytes).
  apply Conn_Read_keeps in Hread as (-> & -> & _). done.
Qed.

(** A position the loop is past keeps its value, in the buffer and in
    whatever is handed to the pending queue. *)
Lemma header_loop_keeps rem : forall m b c l i x,
  i < m -> b !! i = Some x ->
  match header_loop rem m b c l with
  | Fall b' _ l' => b' !! i = Some x /\ l' = l
  | Exit r => forall rc, hands_over l r rc -> rc_prefix rc !! i = Some x
  end.
Proof.
  induction rem as [|rem IH]; intros m b c l i x Him Hb; [done|].
  cbn [header_loop].
  destruct (length b <? m + 1).
  { intros rc H. by apply hands_over_none in H. }
  destruct (Conn_Read c) as [r c1].
  set (b1 := match rr_byte r with Some y => <[m:=y]> b | None => b end).
  assert (Hb1 : b1 !! i = Some x).
  { subst b1. destruct (rr_byte r); [|done].
    rewrite list_lookup_insert_ne by lia. done. }
  assert (Htake : take (m + 1) b1 !! i = Some x).
  { rewrite lookup_take_lt by lia. done. }
  destruct (rr_err r) as [e|].
  - destruct (errors_Is_EOF e).
    + intros rc H. by apply hands_over_none in H.
    + intros rc H. apply hands_over_send in H; [|done]. by subst rc.
  - destruct (rr_byte r) as [y|]; [|by apply IH; [lia|]].
    destruct (_ && _); [|by apply IH; [lia|]].
    intros rc H. apply hands_over_select in H as [_ ->]. done.
Qed.

(** ** The unit of work after the header loop *)

Lemma loop_conn_Exit l c r :
  header_loop (HeaderLen + 2) 0 (replicate (HeaderLen + 2) x00) c l = Exit r ->
  loop_conn l c = r.
Proof. unfold loop_conn. by intros ->. Qed.

Lemma loop_conn_not_found l c evs rest :
  c_reads c = evs ++ rest -> length evs = HeaderLen + 2 ->
  passes 0 evs = true ->
  Validate (l_Upstream l) (take HeaderLen (header_bytes evs)) = false ->
  loop_conn l c
  = select_closed_or_send l (set_reads c rest) (header_bytes evs).
Proof.
  intros Hc Hlen Hp Hv. unfold loop_conn.
  rewrite (header_loop_full evs c l rest) by done.
  assert ((length (header_bytes evs) <? HeaderLen) = false) as ->.
  { apply Nat.ltb_ge. rewrite length_header_bytes. lia. }
  unfold ByteSliceToString. by rewrite Hv.
Qed.

Lemma loop_conn_found l c evs rest :
  c_reads c = evs ++ rest -> length evs = HeaderLen + 2 ->
  passes 0 evs = true ->
  Validate (l_Upstream l) (take HeaderLen (header_bytes evs)) = true ->
  loop_conn l c =
    let key := take HeaderLen (header_bytes evs) in
    let l1 :=
      if l_Verbose l
      then log l (Info_handle_trojan (c_RemoteAddr c))
      else l in
    let '(nr, nw, err, c2) :=
      HandleWithDialer (set_reads c rest) (l_Proxy l) in
    let l2 :=
      match err with
      | Some e => log l1 (Error_handle e)
      | None => l1
      end in
    (set_Upstream l2 (Consume (l_Upstream l) key nr nw),
     Conn_Close c2, Returned).
Proof.
  intros Hc Hlen Hp Hv. unfold loop_conn.
  rewrite (header_loop_full evs c l rest) by done.
  assert ((length (header_bytes evs) <? HeaderLen) = false) as ->.
  { apply Nat.ltb_ge. rewrite length_header_bytes. lia. }
  unfold ByteSliceToString. rewrite Hv. cbn [negb]. cbv zeta.
  assert (l_Proxy (if l_Verbose l
                   then log l (Info_handle_trojan
                                 (c_RemoteAddr (set_reads c rest)))
                   else l) = l_Proxy l) as -> by by destruct (l_Verbose l).
  destruct (HandleWithDialer _ _) as [[[nr nw] err] c2].
  by destruct (l_Verbose l), err.
Qed.

Lemma loop_conn_found_quiet l c evs rest rc :
  c_reads c = evs ++ rest -> length evs = HeaderLen + 2 ->
  passes 0 evs = true ->
  Validate (l_Upstream l) (take HeaderLen (header_bytes evs)) = true ->
  l_conns (loop_conn l c).1.1 = l_conns l /\
  ~ hands_over l (loop_conn l c) rc.
Proof.
  intros Hc Hlen Hp Hv.
  rewrite (loop_conn_found l c evs rest) by done. cbv zeta.
  destruct (HandleWithDialer _ _) as [[[nr nw] err] c2].
  assert (Hq : l_conns
            (set_Upstream
               match err with
               | Some e =>
                   log (if l_Verbose l
                        then log l (Info_handle_trojan (c_RemoteAddr c))
                        else l) (Error_handle e)
               | None =>
                   if l_Verbose l
                   then log l (Info_handle_trojan (c_RemoteAddr c))
                   else l
               end
               (Consume (l_Upstream l)
                  (take HeaderLen (header_bytes evs)) nr nw))
            = l_conns l) by by destruct (l_Verbose l), err.
  split; [done|]. by apply hands_over_none.
Qed.

Lemma loop_conn_line_feed l c evs rest :
  c_reads c = evs ++ one_byte x0a :: rest -> passes 0 evs = true ->
  length evs < HeaderLen + 1 ->
  loop_conn l c
  = select_closed_or_send l (set_reads c rest) (header_bytes evs ++ [x0a]).
Proof.
  intros Hc Hp Hlen. apply loop_conn_Exit.
  rewrite (header_loop_next evs c l (one_byte x0a :: rest)
             (one_byte x0a) (set_reads c rest)) by (done || lia).
  cbv zeta. cbn [one_byte rr_err rr_byte].
  rewrite bool_decide_eq_true_2 by done.
  assert ((length evs <? HeaderLen + 1) = true) as -> by by apply Nat.ltb_lt.
  done.
Qed.

Lemma loop_conn_not_found_one_byte l c hdr rest :
  c_reads c = map one_byte hdr ++ rest -> length hdr = HeaderLen + 2 ->
  x0a ∉ take (HeaderLen + 1) hdr ->
  Validate (l_Upstream l) (ByteSliceToString (take HeaderLen hdr)) = false ->
  loop_conn l c = select_closed_or_send l (set_reads c rest) hdr.
Proof.
  intros Hc Hlen Hlf Hv.
  rewrite (loop_conn_not_found l c (map one_byte hdr) rest);
    rewrite ?header_bytes_one_byte, ?length_map; try done.
  apply (passes_no_line_feed hdr (HeaderLen + 1)); auto.
Qed.

Lemma loop_conn_line_feed_one_byte l c hdr rest k :
  c_reads c = map one_byte hdr ++ rest ->
  k < HeaderLen + 1 -> length hdr = k + 1 -> hdr !! k = Some x0a ->
  x0a ∉ take k hdr ->
  loop_conn l c = select_closed_or_send l (set_reads c rest) hdr.
Proof.
  intros Hc Hk Hlen Hlf Hnot.
  assert (Hhdr : hdr = take k hdr ++ [x0a]).
  { rewrite <- (take_S_r hdr k x0a Hlf). symmetry. apply take_ge. lia. }
  rewrite Hhdr, map_app, <- app_assoc in Hc. simpl in Hc.
  rewrite (loop_conn_line_feed l c (map one_byte (take k hdr)) rest).
  - by rewrite header_bytes_one_byte, <- Hhdr.
  - done.
  - apply (passes_no_line_feed _ k); [|left; rewrite length_take; lia].
    by rewrite take_take, Nat.min_id.
  - rewrite length_map, length_take. lia.
Qed.

(** The transient-error branch, at whatever position it is taken: the
    prefix has one byte per position up to and including the failing one,
    and the send is not guarded by the close signal. *)
Lemma loop_conn_transient_error l c evs rest r c1 err :
  c_reads c = evs ++ rest -> passes 0 evs = true ->
  length evs < HeaderLen + 2 ->
  Conn_Read (set_reads c rest) = (r, c1) ->
  rr_err r = Some err -> errors_Is_EOF err = false ->
  loop_conn l c
  = send_conns (log l (Error_read_prefix_rewind err)) c1
      (RewindConn c1 (header_bytes evs ++ [default x00 (rr_byte r)])).
Proof.
  intros Hc Hp Hlen Hread Herr Heof. apply loop_conn_Exit.
  rewrite (header_loop_next evs c l rest r c1) by done.
  cbv zeta. by rewrite Herr, Heof.
Qed.

(** ** Slices stay in range *)

Lemma send_conns_no_panic l c rc : (send_conns l c rc).2 <> Panicked.
Proof. unfold send_conns. by destruct (_ <? _). Qed.

Lemma select_no_panic l c hb : (select_closed_or_send l c hb).2 <> Panicked.
Proof.
  unfold select_closed_or_send.
  destruct (l_closed l); [done|apply send_conns_no_panic].
Qed.

Lemma header_loop_no_panic rem : forall n b c l,
  n + rem <= length b ->
  match header_loop rem n b c l with
  | Exit r => r.2 <> Panicked
  | Fall b' _ _ => length b' = length b
  end.
Proof.
  induction rem as [|rem IH]; intros n b c l Hlen; [done|].
  cbn [header_loop].
  assert ((length b <? n + 1) = false) as -> by (apply Nat.ltb_ge; lia).
  destruct (Conn_Read c) as [r c1].
  set (b1 := match rr_byte r with Some y => <[n:=y]> b | None => b end).
  assert (Hb1 : length b1 = length b).
  { subst b1. destruct (rr_byte r); [apply length_insert|done]. }
  assert (Hnext : forall c' l',
    match header_loop rem (n + 1) b1 c' l' with
    | Exit r => r.2 <> Panicked
    | Fall b' _ _ => length b' = length b
    end).
  { intros c' l'. rewrite <- Hb1. apply IH. lia. }
  destruct (rr_err r) as [e|].
  - destruct (errors_Is_EOF e); [done|apply send_conns_no_panic].
  - destruct (rr_byte r) as [y|]; [|apply Hnext].
    destruct (_ && _); [apply select_no_panic|apply Hnext].
Qed.

(** No slice expression of the unit of work is out of range. *)
Lemma loop_conn_no_panic l c : (loop_conn l c).2 <> Panicked.
Proof.
  unfold loop_conn.
  pose proof (header_loop_no_panic (HeaderLen + 2) 0
                (replicate (HeaderLen + 2) x00) c l) as Hloop.
  rewrite length_replicate in Hloop. specialize (Hloop ltac:(lia)).
  destruct (header_loop _ _ _ c l) as [r|bf cf lf]; [done|].
  assert ((length bf <? HeaderLen) = false) as ->
    by (apply Nat.ltb_ge; lia).
  destruct (negb _); [apply select_no_panic|].
  by destruct (HandleWithDialer _ _) as [[[nr nw] err] c2].
Qed.

Lemma passes_app evs : forall n evs',
  passes n (evs ++ evs') = passes n evs && passes (n + length evs) evs'.
Proof.
  induction evs as [|r evs IH]; intros n evs'.
  - simpl. by rewrite Nat.add_0_r.
  - cbn [app passes length]. destruct (rr_err r); [done|].
    rewrite IH. replace (n + 1 + length evs) with (n + S (length evs)) by lia.
    by rewrite andb_assoc.
Qed.

(** ** The claims *)

(** C1 (amended). Every accepted connection that delivers its bytes one
    per read and is routed to the fallback path by an early line feed
    (the first line feed is read at header position [k < L+1]) or by a
    credential key that is not found hands to the rewound connection
    exactly the bytes [hdr] consumed from the connection, in order, so
    the fallback consumer observes the original stream; a line feed at
    position [k] has exactly [k+1] bytes replayed. *)
Theorem fallback_replays_consumed_bytes l c hdr rest :
  c_reads c = map one_byte hdr ++ rest ->
  ((exists k, k < HeaderLen + 1 /\ length hdr = k + 1 /\
              hdr !! k = Some x0a /\ x0a ∉ take k hdr)
   \/ (length hdr = HeaderLen + 2 /\ (x0a ∉ take (HeaderLen + 1) hdr) /\
       Validate (l_Upstream l) (ByteSliceToString (take HeaderLen hdr))
       = false)) ->
  loop_conn l c = select_closed_or_send l (set_reads c rest) hdr /\
  (forall rc, hands_over l (loop_conn l c) rc ->
              rc = RewindConn (set_reads c rest) hdr) /\
  conn_stream (c_reads c)
  = hdr ++ conn_stream (c_reads (set_reads c rest)) /\
  rewound_stream (RewindConn (set_reads c rest) hdr)
  = conn_stream (c_reads c).
Proof.
  intros Hc Hroute.
  assert (Hrun : loop_conn l c
                 = select_closed_or_send l (set_reads c rest) hdr).
  { destruct Hroute as [(k & Hk & Hlen & Hlf & Hnot)|(Hlen & Hnot & Hv)].
    - by apply (loop_conn_line_feed_one_byte l c hdr rest k).
    - by apply loop_conn_not_found_one_byte. }
  split; [done|]. split.
  - rewrite Hrun. intros rc H. by apply hands_over_select in H as [_ ->].
  - by apply rewound_stream_one_byte.
Qed.

(** C2 (amended). A connection that delivers, one byte per read, [L]
    bytes that equal a key validated by the ledger and contain no line
    feed, followed by two bytes of which the first is not a line feed, is
    passed to the handshake relay whatever these two bytes are (they are
    not compared with CR LF): an error of the relay is logged, the counts
    are consumed, the connection is closed, and nothing is handed to the
    fallback path. When the byte after the key is a line feed, the
    connection goes to the fallback step with the [L+1] bytes read. *)
Theorem valid_key_is_relayed_whatever_follows l c key x y rest :
  c_reads c = map one_byte (key ++ [x; y]) ++ rest ->
  length key = HeaderLen -> x0a ∉ key ->
  Validate (l_Upstream l) (ByteSliceToString key) = true ->
  (x <> x0a ->
   (loop_conn l c =
      let l1 :=
        if l_Verbose l
        then log l (Info_handle_trojan (c_RemoteAddr c))
        else l in
      let '(nr, nw, err, c2) :=
        HandleWithDialer (set_reads c rest) (l_Proxy l) in
      let l2 :=
        match err with
        | Some e => log l1 (Error_handle e)
        | None => l1
        end in
      (set_Upstream l2 (Consume (l_Upstream l) key nr nw),
       Conn_Close c2, Returned)) /\
   l_conns (loop_conn l c).1.1 = l_conns l /\
   (forall rc, ~ hands_over l (loop_conn l c) rc)) /\
  (x = x0a ->
   loop_conn l c
   = select_closed_or_send l (set_reads c (one_byte y :: rest))
       (key ++ [x0a])).
Proof.
  intros Hc Hlen Hkey Hv. split.
  - intros Hx.
    set (evs := map one_byte (key ++ [x; y])).
    assert (Hb : header_bytes evs = key ++ [x; y])
      by apply header_bytes_one_byte.
    assert (Hk : take HeaderLen (header_bytes evs) = key).
    { rewrite Hb. by apply take_app_length'. }
    assert (Hl : length evs = HeaderLen + 2).
    { subst evs. rewrite length_map, length_app. simpl. lia. }
    assert (Hp : passes 0 evs = true).
    { apply (passes_no_line_feed _ (HeaderLen + 1)); [|by right].
      rewrite <- Hlen, take_app_add. simpl.
      intros [H|H]%elem_of_app; [done|].
      apply list_elem_of_singleton in H. congruence. }
    unfold ByteSliceToString in Hv. rewrite <- Hk in Hv.
    split; [|split].
    + rewrite (loop_conn_found l c evs rest) by done. by rewrite Hk.
    + by apply (loop_conn_found_quiet l c evs rest (RewindConn c [])).
    + intros rc. by apply (loop_conn_found_quiet l c evs rest rc).
  - intros ->. rewrite map_app, <- app_assoc in Hc. simpl in Hc.
    rewrite (loop_conn_line_feed l c (map one_byte key) (one_byte y :: rest)).
    + by rewrite header_bytes_one_byte.
    + done.
    + apply (passes_no_line_feed _ (length key)); [|by left].
      by rewrite firstn_all.
    + rewrite length_map. lia.
Qed.

(** C4 (amended). A connection that delivers its first [L+2] bytes one
    per read without error, with no line feed among the first [L+1], and
    whose first [L] bytes are not a key of the ledger goes to the
    fallback step with the full [L+2] bytes as prefix: unless the close
    signal has fired it is handed to the pending queue, and what the
    fallback consumer reads is the original stream. *)
Theorem unknown_key_rewinds_full_header l c hdr rest :
  c_reads c = map one_byte hdr ++ rest ->
  length hdr = HeaderLen + 2 ->
  x0a ∉ take (HeaderLen + 1) hdr ->
  Validate (l_Upstream l) (ByteSliceToString (take HeaderLen hdr)) = false ->
  loop_conn l c = select_closed_or_send l (set_reads c rest) hdr /\
  (l_closed l = false ->
   hands_over l (loop_conn l c) (RewindConn (set_reads c rest) hdr)) /\
  length (rc_prefix (RewindConn (set_reads c rest) hdr)) = HeaderLen + 2 /\
  rewound_stream (RewindConn (set_reads c rest) hdr)
  = conn_stream (c_reads c).
Proof.
  intros Hc Hlen Hlf Hv.
  rewrite (loop_conn_not_found_one_byte l c hdr rest) by done.
  split; [done|]. split; [apply select_hands_over|]. split; [done|].
  by apply rewound_stream_one_byte.
Qed.

(** C5. When the header loop has taken [L+2] reads and the key it then
    looks up validates, the unit of work calls the handshake relay on the
    remaining stream and, whether the relay returned an error or not,
    reports the returned counts to the ledger under that key and closes
    the connection; nothing is handed to the fallback path. *)
Theorem valid_key_relays_and_consumes l c evs rest :
  c_reads c = evs ++ rest -> length evs = HeaderLen + 2 ->
  passes 0 evs = true ->
  Validate (l_Upstream l)
    (ByteSliceToString (take HeaderLen (header_bytes evs))) = true ->
  (loop_conn l c =
     let key := ByteSliceToString (take HeaderLen (header_bytes evs)) in
     let l1 :=
       if l_Verbose l
       then log l (Info_handle_trojan (c_RemoteAddr c))
       else l in
     let '(nr, nw, err, c2) :=
       HandleWithDialer (set_reads c rest) (l_Proxy l) in
     let l2 :=
       match err with
       | Some e => log l1 (Error_handle e)
       | None => l1
       end in
     (set_Upstream l2 (Consume (l_Upstream l) key nr nw),
      Conn_Close c2, Returned)) /\
  l_conns (loop_conn l c).1.1 = l_conns l /\
  c_closed (loop_conn l c).1.2 = true /\
  (forall rc, ~ hands_over l (loop_conn l c) rc).
Proof.
  intros Hc Hlen Hp Hv. unfold ByteSliceToString in *.
  split; [by apply loop_conn_found|]. split; [|split].
  - by apply (loop_conn_found_quiet l c evs rest (RewindConn c [])).
  - rewrite (loop_conn_found l c evs rest) by done. cbv zeta.
    by destruct (HandleWithDialer _ _) as [[[nr nw] err] c2].
  - intros rc. by apply (loop_conn_found_quiet l c evs rest rc).
Qed.

(** C6. When the read at a header position below [L+2] fails with an
    error that is end-of-stream, the unit of work logs, closes the raw
    connection and enqueues nothing. *)
Theorem end_of_stream_abandons l c evs rest r c1 err :
  c_reads c = evs ++ rest -> passes 0 evs = true ->
  length evs < HeaderLen + 2 ->
  Conn_Read (set_reads c rest) = (r, c1) ->
  rr_err r = Some err -> errors_Is_EOF err = true ->
  loop_conn l c
  = (log l (Error_read_prefix_EOF (c_RemoteAddr c) (c_LocalAddr c) err),
     Conn_Close c1, Returned) /\
  l_Logger (loop_conn l c).1.1
  = l_Logger l
    ++ [Error_read_prefix_EOF (c_RemoteAddr c) (c_LocalAddr c) err] /\
  c_closed (loop_conn l c).1.2 = true /\
  l_conns (loop_conn l c).1.1 = l_conns l /\
  (forall rc, ~ hands_over l (loop_conn l c) rc).
Proof.
  intros Hc Hp Hlen Hread Herr Heof.
  rewrite (loop_conn_Exit l c
             (log l (Error_read_prefix_EOF
                       (c_RemoteAddr c) (c_LocalAddr c) err),
              Conn_Close c1, Returned)).
  - repeat split; try done. intros rc. by apply hands_over_none.
  - rewrite (header_loop_next evs c l rest r c1) by done.
    cbv zeta. by rewrite Herr, Heof.
Qed.

(** C8 (amended). [Close] is idempotent: a second call changes nothing
    and returns no error. Once the close signal has fired, [Accept] does
    not block: with an empty pending queue (the state in which an
    [Accept] was blocked) it returns the listener-closed error; with
    connections still queued it returns that error or the connection at
    the head of the queue, whichever case the select picks. *)
Theorem Close_idempotent_Accept_when_closed l l' pick :
  l_closed l' = true ->
  (Close l).1 = None /\
  l_closed (Close l).2 = true /\
  Close (Close l).2 = (None, (Close l).2) /\
  Close l' = (None, l') /\
  (l_conns l' = [] ->
   Accept l' pick = (AcceptReturns None (Some os_ErrClosed), l')) /\
  (Accept l' pick = (AcceptReturns None (Some os_ErrClosed), l') \/
   exists rc q, l_conns l' = rc :: q /\
                Accept l' pick = (AcceptReturns (Some rc) None,
                                  set_conns l' q)).
Proof.
  intros Hcl. unfold Close, Accept. rewrite Hcl.
  repeat split.
  - by destruct (l_closed l).
  - by destruct (l_closed l) eqn:E.
  - by destruct (l_closed l) eqn:E; simpl; [rewrite E|].
  - by intros ->.
  - destruct (l_conns l') as [|rc q]; [by left|].
    destruct pick; [right; by exists rc, q|by left].
Qed.

(** C9. [Close] always returns nil and changes nothing but the
    wrapper's own close signal: the wrapped listener, on which no
    operation is called, is left as it was, and so are the pending queue,
    the ledger and the log. *)
Theorem Close_leaves_wrapped_listener l :
  (Close l).1 = None /\
  (Close l).2 = set_closed l true /\
  l_Listener (Close l).2 = l_Listener l /\
  nl_closed (l_Listener (Close l).2) = nl_closed (l_Listener l) /\
  l_conns (Close l).2 = l_conns l /\
  l_Upstream (Close l).2 = l_Upstream l /\
  l_Logger (Close l).2 = l_Logger l.
Proof.
  unfold Close. destruct l as [v nl up px lg q []]; done.
Qed.

(** C10. When the read at header position [n] returns zero bytes and a
    nil error, the loop takes the next read at position [n+1] and does not
    read position [n] again: the buffer holds, position by position, the
    bytes of the reads before, the 0x00 it was made with at [n], and the
    bytes of the reads after. That buffer is what the unit of work goes on
    with as if the 0x00 had been received: its first [L] bytes are the key
    given to [Validate] (and to [Consume]), and it is the prefix of every
    rewind that follows, on the unknown-key route, on a later early line
    feed and on a later transient error. *)
Theorem zero_read_leaves_zero_byte l c evs evs2 rest :
  c_reads c = evs ++ zero_read :: evs2 ++ rest ->
  passes 0 (evs ++ zero_read :: evs2) = true ->
  length evs + length evs2 < HeaderLen + 2 ->
  let n := length evs in
  let b := header_bytes evs ++ x00 :: header_bytes evs2 in
  (b !! n = Some x00 /\
   (forall y evs3, evs2 = one_byte y :: evs3 -> b !! (n + 1) = Some y) /\
   ByteSliceToString (take HeaderLen b) !! n
   = (if decide (n < HeaderLen) then Some x00 else None)) /\
  (length b = HeaderLen + 2 ->
   header_loop (HeaderLen + 2) 0 (replicate (HeaderLen + 2) x00) c l
   = Fall b (set_reads c rest) l /\
   loop_conn l c =
     let key := ByteSliceToString (take HeaderLen b) in
     if Validate (l_Upstream l) key then
       let l1 :=
         if l_Verbose l
         then log l (Info_handle_trojan (c_RemoteAddr c))
         else l in
       let '(nr, nw, err, c2) :=
         HandleWithDialer (set_reads c rest) (l_Proxy l) in
       let l2 :=
         match err with
         | Some e => log l1 (Error_handle e)
         | None => l1
         end in
       (set_Upstream l2 (Consume (l_Upstream l) key nr nw),
        Conn_Close c2, Returned)
     else select_closed_or_send l (set_reads c rest) b) /\
  (forall rest', rest = one_byte x0a :: rest' -> length b < HeaderLen + 1 ->
   loop_conn l c
   = select_closed_or_send l (set_reads c rest') (b ++ [x0a])) /\
  (forall ev rest' err,
     rest = ev :: rest' -> length b < HeaderLen + 2 ->
     rr_err ev = Some err -> errors_Is_EOF err = false ->
     loop_conn l c
     = send_conns (log l (Error_read_prefix_rewind err)) (set_reads c rest')
         (RewindConn (set_reads c rest')
            (b ++ [default x00 (rr_byte ev)]))) /\
  (forall rc, hands_over l (loop_conn l c) rc ->
              rc_prefix rc !! n = Some x00).
Proof.
  intros Hc Hp Hlen n b.
  set (evs' := evs ++ zero_read :: evs2) in *.
  assert (Hbytes : header_bytes evs' = b).
  { subst evs' b. unfold header_bytes. by rewrite map_app. }
  assert (Hc' : c_reads c = evs' ++ rest).
  { subst evs'. by rewrite <- app_assoc. }
  assert (Hlen' : length evs' = length evs + length evs2 + 1).
  { subst evs'. rewrite length_app. simpl. lia. }
  assert (Hlb : length b = length evs + length evs2 + 1).
  { by rewrite <- Hbytes, length_header_bytes. }
  assert (Hb : b !! n = Some x00).
  { subst b n. by rewrite list_lookup_middle by by rewrite length_header_bytes. }
  split; [split; [done|split]|].
  { intros y evs3 ->. subst b n. simpl.
    rewrite lookup_app_r by (rewrite length_header_bytes; lia).
    rewrite length_header_bytes.
    by replace (length evs + 1 - length evs) with 1 by lia. }
  { unfold ByteSliceToString. rewrite lookup_take. by case_decide. }
  split; [|split; [|split]].
  - intros Hfull.
    assert (Hfall :
      header_loop (HeaderLen + 2) 0 (replicate (HeaderLen + 2) x00) c l
      = Fall b (set_reads c rest) l).
    { rewrite <- Hbytes. apply header_loop_full; [done|done|lia]. }
    split; [done|]. cbv zeta. rewrite <- Hbytes.
    destruct (Validate (l_Upstream l)
                (ByteSliceToString (take HeaderLen (header_bytes evs'))))
      eqn:Hv.
    + rewrite (loop_conn_found l c evs' rest); try done. lia.
    + rewrite (loop_conn_not_found l c evs' rest); try done. lia.
  - intros rest' -> Hshort. rewrite <- Hbytes.
    apply loop_conn_line_feed; [done|done|lia].
  - intros ev rest' err -> Hshort Herr Heof. rewrite <- Hbytes.
    apply (loop_conn_transient_error l c evs' (ev :: rest') ev);
      try done; lia.
  - assert (Hp0 : passes 0 evs = true).
    { subst evs'. rewrite passes_app in Hp.
      by apply andb_true_iff in Hp as [? _]. }
    assert (Hn : length evs < HeaderLen + 2) by lia.
    set (b0 := header_bytes evs ++ replicate (HeaderLen + 2 - n) x00).
    assert (Hb0 : b0 !! n = Some x00).
    { subst b0 n.
      rewrite lookup_app_r by (rewrite length_header_bytes; lia).
      rewrite length_header_bytes, Nat.sub_diag.
      replace (HeaderLen + 2 - length evs)
        with (S (HeaderLen + 1 - length evs)) by lia. done. }
    assert (Hrun :
      header_loop (HeaderLen + 2) 0 (replicate (HeaderLen + 2) x00) c l
      = header_loop (HeaderLen + 1 - n) (n + 1) b0
          (set_reads c (evs2 ++ rest)) l).
    { rewrite (header_loop_next evs c l (zero_read :: evs2 ++ rest)
                 zero_read (set_reads c (evs2 ++ rest))) by done.
      cbv zeta. cbn [zero_read rr_err rr_byte default]. subst b0 n.
      replace (HeaderLen + 2 - length evs)
        with (S (HeaderLen + 1 - length evs)) by lia. done. }
    pose proof (header_loop_keeps (HeaderLen + 1 - n) (n + 1) b0
                  (set_reads c (evs2 ++ rest)) l n x00 ltac:(lia) Hb0)
      as Hkeep.
    rewrite <- Hrun in Hkeep.
    intros rc. unfold loop_conn.
    destruct (header_loop (HeaderLen + 2) 0 _ c l) as [r|bf cf lf];
      [by apply Hkeep|].
    destruct Hkeep as [Hbf ->].
    destruct (length bf <? HeaderLen);
      [intros H; by apply hands_over_none in H|].
    destruct (negb _).
    + intros H. apply hands_over_select in H as [_ ->]. done.
    + destruct (HandleWithDialer _ _) as [[[nr nw] err] c2].
      intros H. apply hands_over_none in H; [done| |done].
      by destruct (l_Verbose l), err.
Qed.

End Properties.

(** * The statements at the sample inputs *)

(** Settles a decidable proposition about sample data by evaluation. *)
Ltac by_decide := refine (bool_decide_unpack _ _); vm_compute; exact I.

(** C1: the plain-text client is rewound with the 16 bytes read. *)
Lemma fallback_replays_consumed_bytes_witness :
  let hdr := take 16 http_request in
  let rest := map one_byte (drop 16 http_request) in
  c_reads http_conn = map one_byte hdr ++ rest /\
  (15 < HeaderLen + 1 /\ length hdr = 15 + 1 /\
   hdr !! 15 = Some x0a /\ x0a ∉ take 15 hdr) /\
  loop_conn sample_listener http_conn
  = select_closed_or_send sample_listener (set_reads http_conn rest) hdr /\
  rewound_stream (RewindConn (set_reads http_conn rest) hdr)
  = conn_stream (c_reads http_conn).
Proof.
  intros hdr rest.
  assert (H1 : c_reads http_conn = map one_byte hdr ++ rest) by reflexivity.
  assert (H2 : 15 < HeaderLen + 1 /\ length hdr = 15 + 1 /\
               hdr !! 15 = Some x0a /\ x0a ∉ take 15 hdr).
  { split; [simpl; lia|]. split; [reflexivity|]. split; [reflexivity|].
    by_decide. }
  pose proof (fallback_replays_consumed_bytes sample_listener http_conn
                hdr rest H1 (or_introl (ex_intro _ 15 H2))) as H.
  exact (conj H1 (conj H2 (conj (proj1 H) (proj2 (proj2 (proj2 H)))))).
Defined.

(** C1: after a read of zero bytes the plain-text client is rewound with a
    0x00 in front of the 16 bytes that were read. *)
Lemma zero_read_breaks_replay :
  exists rc,
    hands_over sample_listener (loop_conn sample_listener zero_http_conn) rc /\
    rc_prefix rc = x00 :: take 16 http_request /\
    conn_stream (c_reads zero_http_conn) = http_request /\
    rewound_stream rc <> conn_stream (c_reads zero_http_conn).
Proof.
  exists (RewindConn
            (set_reads zero_http_conn (map one_byte (drop 16 http_request)))
            (x00 :: take 16 http_request)).
  split; [left; vm_compute; reflexivity|].
  split; [reflexivity|]. split; [reflexivity|].
  vm_compute. discriminate.
Qed.

(** C2: the sample key followed by the bytes ["XY"] is relayed; the relay
    reports no error, the 18 bytes of payload are counted under the key and
    nothing is queued. *)
Lemma valid_key_is_relayed_whatever_follows_witness :
  let c := keyed_conn x58 x59 in
  let rest := map one_byte (x01 :: http_request) in
  c_reads c = map one_byte (sample_key ++ [x58; x59]) ++ rest /\
  length sample_key = HeaderLen /\ (x0a ∉ sample_key) /\ x58 <> x0a /\
  Validate (l_Upstream sample_listener) (ByteSliceToString sample_key) = true /\
  l_conns (loop_conn sample_listener c).1.1 = [] /\
  l_Logger (loop_conn sample_listener c).1.1 = [] /\
  l_Upstream (loop_conn sample_listener c).1.1 !! sample_key
  = Some (18%Z, 0%Z) /\
  c_closed (loop_conn sample_listener c).1.2 = true.
Proof.
  intros c rest.
  assert (H1 : c_reads c = map one_byte (sample_key ++ [x58; x59]) ++ rest)
    by reflexivity.
  assert (H2 : length sample_key = HeaderLen) by reflexivity.
  assert (H3 : x0a ∉ sample_key) by by_decide.
  assert (H4 : x58 <> x0a) by discriminate.
  assert (H5 : Validate (l_Upstream sample_listener)
                 (ByteSliceToString sample_key) = true)
    by (vm_compute; reflexivity).
  pose proof (valid_key_is_relayed_whatever_follows sample_listener c
                sample_key x58 x59 rest H1 H2 H3 H5) as [Hrelay _].
  destruct (Hrelay H4) as (Hrun & Hq & _).
  repeat (split; [assumption|]).
  rewrite Hrun. vm_compute. repeat split.
Defined.

(** C2: the sample key followed by two line feeds is handed to the fallback
    path with the 57 bytes read. *)
Lemma valid_key_then_line_feed_falls_back :
  let c := keyed_conn x0a x0a in
  take 56 (conn_stream (c_reads c)) = sample_key /\
  Validate (l_Upstream sample_listener) (ByteSliceToString sample_key) = true /\
  take 2 (drop 56 (conn_stream (c_reads c))) = [x0a; x0a] /\
  [x0a; x0a] <> [x0d; x0a] /\
  hands_over sample_listener (loop_conn sample_listener c)
    (RewindConn
       (set_reads c (map one_byte (x0a :: x01 :: http_request)))
       (sample_key ++ [x0a])).
Proof.
  intros c. split; [reflexivity|]. split; [vm_compute; reflexivity|].
  split; [reflexivity|]. split; [discriminate|].
  left. vm_compute. reflexivity.
Qed.

(** C3: a first read that fails with a transient error and returns no byte
    leaves the connection queued with a one-byte prefix, the 0x00 of the
    fresh buffer, although no byte was consumed. *)
Lemma transient_error_rewinds_unread_byte :
  let r := loop_conn sample_listener failing_conn in
  let c1 := set_reads failing_conn (map one_byte http_request) in
  errors_Is_EOF tls_error = false /\
  l_conns r.1.1 = [RewindConn c1 [x00]] /\
  conn_stream (c_reads failing_conn) = http_request /\
  rewound_stream (RewindConn c1 [x00]) = x00 :: http_request.
Proof. vm_compute. repeat split. Qed.

(** C4: the 58 unknown bytes are handed over as they were read. *)
Lemma unknown_key_rewinds_full_header_witness :
  let rest := map one_byte http_request in
  c_reads unknown_conn = map one_byte unknown_header ++ rest /\
  length unknown_header = HeaderLen + 2 /\
  (x0a ∉ take (HeaderLen + 1) unknown_header) /\
  Validate (l_Upstream sample_listener)
    (ByteSliceToString (take HeaderLen unknown_header)) = false /\
  hands_over sample_listener (loop_conn sample_listener unknown_conn)
    (RewindConn (set_reads unknown_conn rest) unknown_header) /\
  rewound_stream (RewindConn (set_reads unknown_conn rest) unknown_header)
  = conn_stream (c_reads unknown_conn).
Proof.
  intros rest.
  assert (H1 : c_reads unknown_conn = map one_byte unknown_header ++ rest)
    by reflexivity.
  assert (H2 : length unknown_header = HeaderLen + 2) by reflexivity.
  assert (H3 : x0a ∉ take (HeaderLen + 1) unknown_header) by by_decide.
  assert (H4 : Validate (l_Upstream sample_listener)
                 (ByteSliceToString (take HeaderLen unknown_header)) = false)
    by (vm_compute; reflexivity).
  pose proof (unknown_key_rewinds_full_header sample_listener unknown_conn
                unknown_header rest H1 H2 H3 H4) as (_ & Hq & _ & Hs).
  repeat (split; [assumption|]).
  split; [apply Hq; reflexivity|exact Hs].
Defined.

(** C4: after a read of zero bytes, 58 positions without an early line feed
    and without a known key are handed over with a 0x00 in front of the 57
    bytes that were read. *)
Lemma zero_read_breaks_full_rewind :
  let c := zero_unknown_conn in
  Forall (fun r => rr_err r = None) (c_reads c) /\
  (x0a ∉ take 58 (conn_stream (c_reads c))) /\
  Validate (l_Upstream sample_listener)
    (ByteSliceToString (take 56 (conn_stream (c_reads c)))) = false /\
  exists rc,
    hands_over sample_listener (loop_conn sample_listener c) rc /\
    rc_prefix rc = x00 :: replicate 57 x41 /\
    rewound_stream rc <> conn_stream (c_reads c).
Proof.
  intros c. split.
  { change (c_reads c)
      with (zero_read :: (one_byte <$> (replicate 57 x41 ++ http_request))).
    constructor; [done|]. apply Forall_fmap, Forall_true. done. }
  split; [by_decide|]. split; [vm_compute; reflexivity|].
  exists (RewindConn (set_reads c (map one_byte http_request))
            (x00 :: replicate 57 x41)).
  split; [left; vm_compute; reflexivity|]. split; [reflexivity|].
  vm_compute. discriminate.
Qed.

(** C5: the sample key followed by CR LF, the connect command and the
    request. *)
Lemma valid_key_relays_and_consumes_witness :
  let c := keyed_conn x0d x0a in
  let evs := map one_byte (sample_key ++ [x0d; x0a]) in
  let rest := map one_byte (x01 :: http_request) in
  c_reads c = evs ++ rest /\ length evs = HeaderLen + 2 /\
  passes 0 evs = true /\
  Validate (l_Upstream sample_listener)
    (ByteSliceToString (take HeaderLen (header_bytes evs))) = true /\
  l_conns (loop_conn sample_listener c).1.1 = [] /\
  c_closed (loop_conn sample_listener c).1.2 = true /\
  l_Upstream (loop_conn sample_listener c).1.1 !! sample_key
  = Some (18%Z, 0%Z).
Proof.
  intros c evs rest.
  assert (H1 : c_reads c = evs ++ rest) by reflexivity.
  assert (H2 : length evs = HeaderLen + 2) by reflexivity.
  assert (H3 : passes 0 evs = true) by (vm_compute; reflexivity).
  assert (H4 : Validate (l_Upstream sample_listener)
                 (ByteSliceToString (take HeaderLen (header_bytes evs)))
               = true) by (vm_compute; reflexivity).
  pose proof (valid_key_relays_and_consumes sample_listener c evs rest
                H1 H2 H3 H4) as (Hrun & Hq & Hcl & _).
  repeat (split; [assumption|]).
  rewrite Hrun. vm_compute. reflexivity.
Defined.

(** C6: the client that closes after five bytes is logged and closed. *)
Lemma end_of_stream_abandons_witness :
  let evs := c_reads short_conn in
  let c1 := set_reads short_conn [] in
  c_reads short_conn = evs ++ [] /\ passes 0 evs = true /\
  length evs < HeaderLen + 2 /\
  Conn_Read c1 = (mkRead None (Some io_EOF), c1) /\
  errors_Is_EOF io_EOF = true /\
  loop_conn sample_listener short_conn
  = (log sample_listener
       (Error_read_prefix_EOF (c_RemoteAddr short_conn)
          (c_LocalAddr short_conn) io_EOF),
     Conn_Close c1, Returned) /\
  l_conns (loop_conn sample_listener short_conn).1.1 = [].
Proof.
  intros evs c1.
  assert (H1 : c_reads short_conn = evs ++ []) by reflexivity.
  assert (H2 : passes 0 evs = true) by (vm_compute; reflexivity).
  assert (H3 : length evs < HeaderLen + 2) by (simpl; lia).
  assert (H4 : Conn_Read c1 = (mkRead None (Some io_EOF), c1))
    by reflexivity.
  assert (H5 : errors_Is_EOF io_EOF = true) by reflexivity.
  pose proof (end_of_stream_abandons sample_listener short_conn evs []
                (mkRead None (Some io_EOF)) c1 io_EOF H1 H2 H3 H4 eq_refl H5)
    as (Hrun & _ & _ & Hq & _).
  repeat (split; [assumption|]). exact Hq.
Defined.

(** C7: with the close signal fired, the plain-text client is closed and
    not queued, but the client whose read fails with a transient error is
    queued and left open. *)
Lemma transient_error_enqueues_after_close :
  let r := loop_conn closed_listener failing_conn in
  l_closed closed_listener = true /\
  l_conns closed_listener = [] /\
  l_conns (loop_conn closed_listener http_conn).1.1 = [] /\
  c_closed (loop_conn closed_listener http_conn).1.2 = true /\
  l_conns r.1.1
  = [RewindConn (set_reads failing_conn (map one_byte http_request)) [x00]] /\
  c_closed r.1.2 = false /\
  r.2 = Returned.
Proof. vm_compute. repeat split. Qed.

(** C8: after [Close], with the plain-text client still queued. *)
Lemma Close_idempotent_Accept_when_closed_witness :
  l_closed closed_listener_with_pending = true /\
  Close closed_listener_with_pending = (None, closed_listener_with_pending) /\
  (Accept closed_listener_with_pending false).1
  = AcceptReturns None (Some os_ErrClosed).
Proof.
  assert (H1 : l_closed closed_listener_with_pending = true) by reflexivity.
  pose proof (Close_idempotent_Accept_when_closed sample_listener
                closed_listener_with_pending false H1)
    as (_ & _ & _ & Hclose & _ & _).
  split; [exact H1|]. split; [exact Hclose|]. reflexivity.
Defined.

(** C8: after [Close], an [Accept] can still return the queued client. *)
Lemma Accept_returns_connection_after_close :
  l_closed closed_listener_with_pending = true /\
  (Accept closed_listener_with_pending true).1
  = AcceptReturns
      (Some (RewindConn
               (set_reads http_conn (map one_byte (drop 16 http_request)))
               (take 16 http_request)))
      None /\
  ~ (forall pick,
       (Accept closed_listener_with_pending pick).1
       = AcceptReturns None (Some os_ErrClosed)).
Proof.
  split; [reflexivity|]. split; [vm_compute; reflexivity|].
  intros H. specialize (H true). vm_compute in H. discriminate.
Qed.

(** C10: after a first read of zero bytes, 57 more bytes fill the buffer:
    the key that is looked up starts with the 0x00, and the 58 positions
    are handed over as they are. With the plain-text client the 0x00 is in
    front of the 16 bytes read up to the line feed. *)
Lemma zero_read_leaves_zero_byte_witness :
  let evs2 := map one_byte (replicate 57 x41) in
  let rest := map one_byte http_request in
  let b := x00 :: replicate 57 x41 in
  (c_reads zero_unknown_conn = [] ++ zero_read :: evs2 ++ rest /\
   passes 0 ([] ++ zero_read :: evs2) = true /\
   Validate (l_Upstream sample_listener)
     (ByteSliceToString (take HeaderLen b)) = false /\
   loop_conn sample_listener zero_unknown_conn
   = select_closed_or_send sample_listener
       (set_reads zero_unknown_conn rest) b) /\
  loop_conn sample_listener zero_http_conn
  = select_closed_or_send sample_listener
      (set_reads zero_http_conn (map one_byte (drop 16 http_request)))
      (x00 :: take 16 http_request).
Proof.
  intros evs2 rest b. split.
  - assert (H1 : c_reads zero_unknown_conn = [] ++ zero_read :: evs2 ++ rest)
      by reflexivity.
    assert (H2 : passes 0 ([] ++ zero_read :: evs2) = true)
      by (vm_compute; reflexivity).
    assert (H3 : length (@nil ReadResult) + length evs2 < HeaderLen + 2)
      by by_decide.
    assert (H4 : Validate (l_Upstream sample_listener)
                   (ByteSliceToString (take HeaderLen b)) = false)
      by (vm_compute; reflexivity).
    pose proof (zero_read_leaves_zero_byte sample_listener zero_unknown_conn
                  [] evs2 rest H1 H2 H3) as (_ & Hfull & _).
    destruct (Hfull eq_refl) as [_ Hrun].
    cbv zeta in Hrun.
    change (header_bytes [] ++ x00 :: header_bytes evs2) with b in Hrun.
    rewrite H4 in Hrun.
    exact (conj H1 (conj H2 (conj H4 Hrun))).
  - assert (H1 : c_reads zero_http_conn
                 = [] ++ zero_read :: map one_byte (take 15 http_request)
                     ++ one_byte x0a :: map one_byte (drop 16 http_request))
      by reflexivity.
    assert (H2 : passes 0 ([] ++ zero_read
                             :: map one_byte (take 15 http_request)) = true)
      by (vm_compute; reflexivity).
    assert (H3 : length (@nil ReadResult)
                 + length (map one_byte (take 15 http_request))
                 < HeaderLen + 2) by by_decide.
    pose proof (zero_read_leaves_zero_byte sample_listener zero_http_conn
                  [] (map one_byte (take 15 http_request))
                  (one_byte x0a :: map one_byte (drop 16 http_request))
                  H1 H2 H3) as (_ & _ & Hlf & _).
    refine (Hlf (map one_byte (drop 16 http_request)) eq_refl _).
    by_decide.
Defined.

(** * Every way a unit of work can end *)

(** The runs of [loop_conn], told by what the connection delivers: the
    reads [evs] pass, and then the connection ends, fails, delivers an
    early line feed, or [HeaderLen + 2] positions are filled and the key is
    looked up. *)
Inductive unit_run {U P} `{Upstream U} `{Trojan P}
    (l : Listener U P) (c : Conn)
  : Listener U P * Conn * unit_end -> Prop :=
| run_abandon evs rest ev c1 err :
    c_reads c = evs ++ rest -> passes 0 evs = true ->
    length evs < HeaderLen + 2 ->
    Conn_Read (set_reads c rest) = (ev, c1) ->
    rr_err ev = Some err -> errors_Is_EOF err = true ->
    unit_run l c
      (log l (Error_read_prefix_EOF (c_RemoteAddr c) (c_LocalAddr c) err),
       Conn_Close c1, Returned)
| run_transient evs ev rest err :
    c_reads c = evs ++ ev :: rest -> passes 0 evs = true ->
    length evs < HeaderLen + 2 ->
    rr_err ev = Some err -> errors_Is_EOF err = false ->
    unit_run l c
      (send_conns (log l (Error_read_prefix_rewind err)) (set_reads c rest)
         (RewindConn (set_reads c rest) (header_bytes (evs ++ [ev]))))
| run_line_feed evs rest :
    c_reads c = evs ++ one_byte x0a :: rest -> passes 0 evs = true ->
    length evs < HeaderLen + 1 ->
    unit_run l c
      (select_closed_or_send l (set_reads c rest)
         (header_bytes (evs ++ [one_byte x0a])))
| run_unknown_key evs rest :
    c_reads c = evs ++ rest -> passes 0 evs = true ->
    length evs = HeaderLen + 2 ->
    Validate (l_Upstream l)
      (ByteSliceToString (take HeaderLen (header_bytes evs))) = false ->
    unit_run l c
      (select_closed_or_send l (set_reads c rest) (header_bytes evs))
| run_relay evs rest nr nw err c2 :
    c_reads c = evs ++ rest -> passes 0 evs = true ->
    length evs = HeaderLen + 2 ->
    Validate (l_Upstream l)
      (ByteSliceToString (take HeaderLen (header_bytes evs))) = true ->
    HandleWithDialer (set_reads c rest) (l_Proxy l) = (nr, nw, err, c2) ->
    unit_run l c
      (set_Upstream
         (let l1 :=
            if l_Verbose l
            then log l (Info_handle_trojan (c_RemoteAddr c))
            else l in
          match err with
          | Some e => log l1 (Error_handle e)
          | None => l1
          end)
         (Consume (l_Upstream l)
            (ByteSliceToString (take HeaderLen (header_bytes evs))) nr nw),
       Conn_Close c2, Returned).

(** The pending queue has room for [conns_cap] connections. *)
Definition queue_ok {U P} (l : Listener U P) : Prop :=
  length (l_conns l) <= conns_cap.

(** A listener whose pending queue is full. *)
Definition full_listener : Listener (gmap gostring (Z * Z)) unit :=
  set_conns sample_listener
    (replicate 8 (RewindConn (sample_conn []) [x0a])).

(** The two guarded routes to the fallback step, told by the reads: after
    the passing reads [evs] an early line feed is read, or [evs] fills the
    buffer and its key is unknown; [p] is the prefix to replay and [rest]
    what the connection has yet to deliver. *)
Definition falls_back {U P} `{Upstream U} `{Trojan P}
    (l : Listener U P) (c : Conn) (evs rest : list ReadResult)
    (p : list byte) : Prop :=
  passes 0 evs = true /\
  ((c_reads c = evs ++ one_byte x0a :: rest /\ length evs < HeaderLen + 1 /\
    p = header_bytes evs ++ [x0a])
   \/ (c_reads c = evs ++ rest /\ length evs = HeaderLen + 2 /\
       Validate (l_Upstream l)
         (ByteSliceToString (take HeaderLen (header_bytes evs))) = false /\
       p = header_bytes evs)).

Section UnitOfWork.
Context {U P : Type} `{!Upstream U} `{!Trojan P}.

Implicit Types (l : Listener U P) (c : Conn) (b hb hdr : list byte).
Implicit Types (evs rest rs : list ReadResult) (rc : RewoundConn).

(** A script splits into the reads that pass and, unless [rem] reads
    passed, the end of the script or the read that stops the loop. *)
Lemma passes_split rem : forall n rs,
  exists evs rest,
    rs = evs ++ rest /\ passes n evs = true /\
    (length evs = rem \/
     (length evs < rem /\
      (rest = [] \/
       exists ev rest', rest = ev :: rest' /\
         (is_Some (rr_err ev) \/
          (rr_err ev = None /\ rr_byte ev = Some x0a /\
           n + length evs < HeaderLen + 1))))).
Proof.
  induction rem as [|rem IH]; intros n rs.
  { exists [], rs. repeat split. by left. }
  destruct rs as [|ev rs].
  { exists [], []. repeat split. right. split; [simpl; lia|by left]. }
  destruct (rr_err ev) as [e|] eqn:Herr.
  { exists [], (ev :: rs). repeat split. right. split; [simpl; lia|].
    right. exists ev, rs. split; [done|]. left. rewrite Herr. by eexists. }
  destruct (bool_decide (rr_byte ev = Some x0a) && (n <? HeaderLen + 1))
    eqn:Hlf.
  { apply andb_true_iff in Hlf as [Hb Hn].
    apply bool_decide_eq_true_1 in Hb. apply Nat.ltb_lt in Hn.
    exists [], (ev :: rs). repeat split. right. split; [simpl; lia|].
    right. exists ev, rs. split; [done|]. right. simpl.
    repeat split; [done|done|lia]. }
  destruct (IH (n + 1) rs) as (evs & rest & -> & Hp & Hlen).
  exists (ev :: evs), rest. split; [done|]. split.
  { cbn [passes]. by rewrite Herr, Hlf, Hp. }
  simpl. destruct Hlen as [Hlen|(Hlen & Hstop)]; [left; lia|].
  right. split; [lia|].
  destruct Hstop as [->|(ev' & rest' & -> & Hstop)]; [by left|].
  right. exists ev', rest'. split; [done|].
  destruct Hstop as [?|(? & ? & ?)]; [by left|right].
  repeat split; [done|done|lia].
Qed.

Lemma header_bytes_snoc evs ev :
  header_bytes (evs ++ [ev]) = header_bytes evs ++ [default x00 (rr_byte ev)].
Proof. unfold header_bytes. by rewrite map_app. Qed.

(** X1. Every unit of work is one of the five runs: there is no other way
    for [loop_conn] to end. *)
Theorem loop_conn_is_a_run l c : unit_run l c (loop_conn l c).
Proof.
  destruct (passes_split (HeaderLen + 2) 0 (c_reads c))
    as (evs & rest & Hc & Hp & [Hlen|(Hlen & Hstop)]).
  - destruct (Validate (l_Upstream l)
                (ByteSliceToString (take HeaderLen (header_bytes evs))))
      eqn:Hv.
    + destruct (HandleWithDialer (set_reads c rest) (l_Proxy l))
        as [[[nr nw] err] c2] eqn:Hrelay.
      rewrite (loop_conn_found l c evs rest) by done. cbv zeta.
      rewrite Hrelay. by eapply run_relay.
    + rewrite (loop_conn_not_found l c evs rest) by done.
      by apply run_unknown_key.
  - destruct Hstop as [->|(ev & rest' & -> & Hstop)].
    + rewrite (loop_conn_Exit l c
                 (log l (Error_read_prefix_EOF
                           (c_RemoteAddr c) (c_LocalAddr c) io_EOF),
                  Conn_Close (set_reads c []), Returned)).
      * by eapply (run_abandon l c evs [] (mkRead None (Some io_EOF))).
      * by rewrite (header_loop_next evs c l [] (mkRead None (Some io_EOF))
                      (set_reads c [])).
    + pose proof (Conn_Read_cons (set_reads c (ev :: rest')) ev rest' eq_refl)
        as Hread. cbn in Hread.
      destruct Hstop as [[err Herr]|(Herr & Hb & Hn)].
      * destruct (errors_Is_EOF err) eqn:Heof.
        -- rewrite (loop_conn_Exit l c
                      (log l (Error_read_prefix_EOF
                                (c_RemoteAddr c) (c_LocalAddr c) err),
                       Conn_Close (set_reads c rest'), Returned)).
           ++ by eapply (run_abandon l c evs (ev :: rest') ev).
           ++ rewrite (header_loop_next evs c l (ev :: rest') ev
                         (set_reads c rest')) by done.
              cbv zeta. by rewrite Herr, Heof.
        -- rewrite (loop_conn_transient_error l c evs (ev :: rest') ev
                      (set_reads c rest') err) by done.
           rewrite <- header_bytes_snoc. by eapply run_transient.
      * assert (ev = one_byte x0a) as ->.
        { destruct ev as [bt er]. simpl in *. by subst. }
        rewrite (loop_conn_line_feed l c evs rest') by (done || lia).
        replace (header_bytes evs ++ [x0a])
          with (header_bytes (evs ++ [one_byte x0a]))
          by apply header_bytes_snoc.
        apply run_line_feed; (done || lia).
Qed.

Lemma falls_back_run l c evs rest hb :
  falls_back l c evs rest hb ->
  loop_conn l c = select_closed_or_send l (set_reads c rest) hb.
Proof.
  intros (Hp & [(Hc & Hlen & ->)|(Hc & Hlen & Hv & ->)]).
  - by apply loop_conn_line_feed.
  - by apply loop_conn_not_found.
Qed.

Lemma header_bytes_delivered evs :
  Forall (fun r => is_Some (rr_byte r)) evs ->
  header_bytes evs = conn_stream evs.
Proof.
  induction 1 as [|r evs [x Hx] _ IH]; [done|].
  simpl. by rewrite Hx, IH.
Qed.

Lemma send_conns_frame l c rc :
  (send_conns l c rc).1.2 = c /\
  l_Upstream (send_conns l c rc).1.1 = l_Upstream l /\
  l_closed (send_conns l c rc).1.1 = l_closed l /\
  l_Listener (send_conns l c rc).1.1 = l_Listener l /\
  l_Logger (send_conns l c rc).1.1 = l_Logger l /\
  (l_conns (send_conns l c rc).1.1 = l_conns l \/
   (l_conns (send_conns l c rc).1.1 = l_conns l ++ [rc] /\
    length (l_conns l) < conns_cap)).
Proof.
  unfold send_conns.
  destruct (length (l_conns l) <? conns_cap) eqn:E; simpl;
    repeat split; auto.
  right. split; [done|]. by apply Nat.ltb_lt.
Qed.

Lemma select_frame l c hb :
  (select_closed_or_send l c hb).1.2
  = (if l_closed l then Conn_Close c else c) /\
  l_Upstream (select_closed_or_send l c hb).1.1 = l_Upstream l /\
  l_closed (select_closed_or_send l c hb).1.1 = l_closed l /\
  l_Listener (select_closed_or_send l c hb).1.1 = l_Listener l /\
  l_Logger (select_closed_or_send l c hb).1.1 = l_Logger l /\
  (l_conns (select_closed_or_send l c hb).1.1 = l_conns l \/
   (l_conns (select_closed_or_send l c hb).1.1
    = l_conns l ++ [RewindConn c hb] /\
    length (l_conns l) < conns_cap)).
Proof.
  unfold select_closed_or_send. destruct (l_closed l) eqn:E.
  - simpl. repeat split; auto.
  - rewrite <- E. apply send_conns_frame.
Qed.

(** X2. A unit of work that starts on an open connection disposes of it
    exactly once: either it closes the connection and hands nothing to the
    pending queue, or it hands over one rewound connection, which wraps the
    raw connection, and leaves that open. *)
Theorem connection_closed_or_handed_over l c :
  c_closed c = false ->
  (c_closed (loop_conn l c).1.2 = true /\
   forall rc, ~ hands_over l (loop_conn l c) rc)
  \/ (c_closed (loop_conn l c).1.2 = false /\
      exists rc,
        hands_over l (loop_conn l c) rc /\
        rc_conn rc = (loop_conn l c).1.2 /\
        forall rc', hands_over l (loop_conn l c) rc' -> rc' = rc).
Proof.
  intros Hopen.
  assert (Hsel : forall c1 hb,
    c_closed c1 = false ->
    (c_closed (select_closed_or_send l c1 hb).1.2 = true /\
     forall rc, ~ hands_over l (select_closed_or_send l c1 hb) rc)
    \/ (c_closed (select_closed_or_send l c1 hb).1.2 = false /\
        exists rc,
          hands_over l (select_closed_or_send l c1 hb) rc /\
          rc_conn rc = (select_closed_or_send l c1 hb).1.2 /\
          forall rc', hands_over l (select_closed_or_send l c1 hb) rc' ->
                      rc' = rc)).
  { intros c1 hb Hc1.
    pose proof (select_frame l c1 hb) as (Hconn & _).
    destruct (l_closed l) eqn:Hcl.
    - left. rewrite Hconn. split; [done|].
      intros rc H. apply hands_over_select in H as [? _]. congruence.
    - right. rewrite Hconn. split; [done|].
      exists (RewindConn c1 hb). split; [by apply select_hands_over|].
      split; [done|]. intros rc' H. by apply hands_over_select in H as [_ ->]. }
  destruct (loop_conn_is_a_run l c)
    as [evs rest ev c1 err Hc Hp Hlen Hread Herr Heof
       |evs ev rest err Hc Hp Hlen Herr Heof
       |evs rest Hc Hp Hlen
       |evs rest Hc Hp Hlen Hv
       |evs rest nr nw err c2 Hc Hp Hlen Hv Hrelay].
  - left. split; [done|]. intros rc. by apply hands_over_none.
  - right.
    pose proof (send_conns_frame (log l (Error_read_prefix_rewind err))
                  (set_reads c rest)
                  (RewindConn (set_reads c rest) (header_bytes (evs ++ [ev]))))
      as (Hconn & _).
    rewrite Hconn. split; [done|].
    exists (RewindConn (set_reads c rest) (header_bytes (evs ++ [ev]))).
    split; [apply (send_hands_over (log l _))|]. split; [done|].
    intros rc' H. by apply hands_over_send in H.
  - by apply Hsel.
  - by apply Hsel.
  - left. split; [done|]. intros rc. apply hands_over_none; [|done].
    by destruct (l_Verbose l), err.
Qed.

(** X3. Whatever a unit of work hands to the pending queue carries one
    prefix byte per [Read] call it made, in order: the byte the call
    delivered, or 0x00 when it delivered none. It made between 1 and
    [L+2] calls, the wrapped connection is the raw one with exactly those
    reads consumed, and when every call delivered a byte the fallback
    consumer reads the original stream. *)
Theorem handed_prefix_has_one_byte_per_read l c rc :
  hands_over l (loop_conn l c) rc ->
  exists evs,
    c_reads c = evs ++ c_reads (rc_conn rc) /\
    rc_conn rc = set_reads c (c_reads (rc_conn rc)) /\
    rc_prefix rc = header_bytes evs /\
    1 <= length evs <= HeaderLen + 2 /\
    (Forall (fun r => is_Some (rr_byte r)) evs ->
     rewound_stream rc = conn_stream (c_reads c)).
Proof.
  assert (Hgen : forall evs rest,
    c_reads c = evs ++ rest -> 1 <= length evs <= HeaderLen + 2 ->
    let rc0 := RewindConn (set_reads c rest) (header_bytes evs) in
    exists evs0,
      c_reads c = evs0 ++ c_reads (rc_conn rc0) /\
      rc_conn rc0 = set_reads c (c_reads (rc_conn rc0)) /\
      rc_prefix rc0 = header_bytes evs0 /\
      1 <= length evs0 <= HeaderLen + 2 /\
      (Forall (fun r => is_Some (rr_byte r)) evs0 ->
       rewound_stream rc0 = conn_stream (c_reads c))).
  { intros evs rest Hc Hlen. exists evs. simpl.
    repeat split; [done|lia|lia|].
    intros Hall. unfold rewound_stream. simpl.
    by rewrite Hc, conn_stream_app, header_bytes_delivered. }
  destruct (loop_conn_is_a_run l c)
    as [evs rest ev c1 err Hc Hp Hlen Hread Herr Heof
       |evs ev rest err Hc Hp Hlen Herr Heof
       |evs rest Hc Hp Hlen
       |evs rest Hc Hp Hlen Hv
       |evs rest nr nw err c2 Hc Hp Hlen Hv Hrelay]; intros H.
  - by apply hands_over_none in H.
  - apply hands_over_send in H as ->; [|done].
    apply Hgen.
    + by rewrite <- app_assoc.
    + rewrite length_app. simpl. lia.
  - apply hands_over_select in H as [_ ->]. apply Hgen.
    + by rewrite <- app_assoc.
    + rewrite length_app. simpl. lia.
  - apply hands_over_select in H as [_ ->]. apply Hgen; [done|lia].
  - apply hands_over_none in H; [done| |done].
    by destruct (l_Verbose l), err.
Qed.


(** X5. A unit of work never removes or reorders pending connections and
    never touches the close signal or the wrapped listener: the queue
    afterwards is the queue before, or the queue before with one
    connection appended where there was room. The bound of eight pending
    connections is kept by the unit of work, by [Accept] and by [Close]. *)
Theorem queue_grows_by_at_most_one l c pick :
  l_closed (loop_conn l c).1.1 = l_closed l /\
  l_Listener (loop_conn l c).1.1 = l_Listener l /\
  (l_conns (loop_conn l c).1.1 = l_conns l \/
   exists rc, l_conns (loop_conn l c).1.1 = l_conns l ++ [rc] /\
              length (l_conns l) < conns_cap) /\
  (queue_ok l ->
   queue_ok (loop_conn l c).1.1 /\ queue_ok (Accept l pick).2 /\
   queue_ok (Close l).2).
Proof.
  assert (Hq : forall l', (l_conns l' = l_conns l \/
               exists rc, l_conns l' = l_conns l ++ [rc] /\
                          length (l_conns l) < conns_cap) ->
               queue_ok l -> queue_ok l').
  { unfold queue_ok. intros l' [->|(rc & -> & Hlt)] Hok; [done|].
    rewrite length_app. simpl. lia. }
  assert (Hops : queue_ok l ->
                 queue_ok (Accept l pick).2 /\ queue_ok (Close l).2).
  { unfold queue_ok, Accept, Close. clear Hq.
    destruct l as [v nl up px lg [|rc q] []], pick; simpl; intros Hok;
      split; lia. }
  assert (Hmain :
    l_closed (loop_conn l c).1.1 = l_closed l /\
    l_Listener (loop_conn l c).1.1 = l_Listener l /\
    (l_conns (loop_conn l c).1.1 = l_conns l \/
     exists rc, l_conns (loop_conn l c).1.1 = l_conns l ++ [rc] /\
                length (l_conns l) < conns_cap)).
  { destruct (loop_conn_is_a_run l c)
      as [evs rest ev c1 err Hc Hp Hlen Hread Herr Heof
         |evs ev rest err Hc Hp Hlen Herr Heof
         |evs rest Hc Hp Hlen
         |evs rest Hc Hp Hlen Hv
         |evs rest nr nw err c2 Hc Hp Hlen Hv Hrelay].
    - repeat split; auto.
    - destruct (send_conns_frame (log l (Error_read_prefix_rewind err))
                  (set_reads c rest)
                  (RewindConn (set_reads c rest)
                     (header_bytes (evs ++ [ev]))))
        as (_ & _ & -> & -> & _ & [->|[-> Hlt]]); repeat split; eauto.
    - destruct (select_frame l (set_reads c rest)
                  (header_bytes (evs ++ [one_byte x0a])))
        as (_ & _ & -> & -> & _ & [->|[-> Hlt]]); repeat split; eauto.
    - destruct (select_frame l (set_reads c rest) (header_bytes evs))
        as (_ & _ & -> & -> & _ & [->|[-> Hlt]]); repeat split; eauto.
    - destruct (l_Verbose l), err; repeat split; auto. }
  destruct Hmain as (H1 & H2 & H3). repeat split; try done.
  - by apply Hq.
  - by apply Hops.
  - by apply Hops.
Qed.

(** X6. Once the close signal has fired, a unit of work that reaches the
    enqueue point of the early line feed or of the unknown key closes its
    raw connection and leaves the listener, queue included, as it was. *)
Theorem guarded_routes_close_after_close_signal l c evs rest hb :
  l_closed l = true -> falls_back l c evs rest hb ->
  loop_conn l c = (l, Conn_Close (set_reads c rest), Returned).
Proof.
  intros Hcl Hroute. rewrite (falls_back_run l c evs rest hb Hroute).
  unfold select_closed_or_send. by rewrite Hcl.
Qed.

(** X7. On an open listener with an empty queue, a connection that takes
    one of the guarded routes to the fallback step is what the next
    [Accept] returns, whatever the select picks: the rewound connection
    with the prefix read, and the listener is back in the state it had.
    When every read delivered a byte, the host reads the original
    stream from it. *)
Theorem fallback_connection_reaches_Accept l c evs rest hb pick :
  l_closed l = false -> l_conns l = [] -> falls_back l c evs rest hb ->
  Accept (loop_conn l c).1.1 pick
  = (AcceptReturns (Some (RewindConn (set_reads c rest) hb)) None, l) /\
  (Forall (fun r => is_Some (rr_byte r)) evs ->
   rewound_stream (RewindConn (set_reads c rest) hb)
   = conn_stream (c_reads c)).
Proof.
  intros Hcl Hq Hroute. split.
  - rewrite (falls_back_run l c evs rest hb Hroute).
    unfold select_closed_or_send, send_conns, Accept.
    rewrite Hcl, Hq. simpl. rewrite Hcl.
    destruct l as [v nl up px lg q cl]. simpl in *. by subst.
  - intros Hall. unfold rewound_stream. simpl.
    destruct Hroute as (_ & [(Hc & _ & ->)|(Hc & _ & _ & ->)]); rewrite Hc.
    + rewrite (cons_middle _ evs), app_assoc, conn_stream_app.
      rewrite <- (header_bytes_delivered (evs ++ [one_byte x0a])).
      * by rewrite header_bytes_snoc.
      * apply Forall_app. split; [done|]. constructor; [by eexists|done].
    + by rewrite conn_stream_app, header_bytes_delivered.
Qed.

(** X8. A read that fails at header position [n] with an error that is
    not end-of-stream sends the connection to the pending queue with a
    prefix of [n+1] bytes, the last one being the byte the failing read
    delivered or 0x00; the raw connection is left as it is and the
    error is logged. The close signal is not consulted. *)
Theorem transient_error_hands_over l c evs ev rest err :
  c_reads c = evs ++ ev :: rest -> passes 0 evs = true ->
  length evs < HeaderLen + 2 ->
  rr_err ev = Some err -> errors_Is_EOF err = false ->
  hands_over l (loop_conn l c)
    (RewindConn (set_reads c rest)
       (header_bytes evs ++ [default x00 (rr_byte ev)])) /\
  length (header_bytes evs ++ [default x00 (rr_byte ev)]) = length evs + 1 /\
  (loop_conn l c).1.2 = set_reads c rest /\
  l_Logger (loop_conn l c).1.1
  = l_Logger l ++ [Error_read_prefix_rewind err].
Proof.
  intros Hc Hp Hlen Herr Heof.
  rewrite (loop_conn_transient_error l c evs (ev :: rest) ev
             (set_reads c rest) err); try done.
  destruct (send_conns_frame (log l (Error_read_prefix_rewind err))
              (set_reads c rest)
              (RewindConn (set_reads c rest)
                 (header_bytes evs ++ [default x00 (rr_byte ev)])))
    as (-> & _ & _ & _ & -> & _).
  split; [apply (send_hands_over (log l _))|].
  rewrite length_app, length_header_bytes. done.
Qed.

(** X9. With eight connections pending on an open listener, a unit of work
    that reaches a guarded enqueue point drops nothing and enqueues
    nothing: it is parked on the send, holding the rewound connection, and
    the raw connection stays open. Once [Accept] has taken the connection
    at the head of the queue the send goes through, at the tail. *)
Theorem full_queue_parks_the_unit l c evs rest hb pick :
  l_closed l = false -> length (l_conns l) = conns_cap ->
  falls_back l c evs rest hb ->
  loop_conn l c
  = (l, set_reads c rest, BlockedSending (RewindConn (set_reads c rest) hb)) /\
  exists rc0 q,
    l_conns l = rc0 :: q /\
    Accept l pick = (AcceptReturns (Some rc0) None, set_conns l q) /\
    send_conns (set_conns l q) (set_reads c rest)
      (RewindConn (set_reads c rest) hb)
    = (set_conns l (q ++ [RewindConn (set_reads c rest) hb]),
       set_reads c rest, Returned).
Proof.
  intros Hcl Hfull Hroute. split.
  - rewrite (falls_back_run l c evs rest hb Hroute).
    unfold select_closed_or_send, send_conns. rewrite Hcl, Hfull.
    by rewrite Nat.ltb_irrefl.
  - destruct (l_conns l) as [|rc0 q] eqn:Hq; [done|].
    exists rc0, q. split; [done|]. unfold Accept, send_conns.
    rewrite Hcl, Hq. split; [done|]. simpl in *.
    assert ((length q <? conns_cap) = true) as ->
      by (apply Nat.ltb_lt; lia).
    done.
Qed.

End UnitOfWork.

(** * The accept loop *)

(** What happens while [loop] runs: the wrapped listener's [Accept]
    returns a connection, or an error, or somebody calls [Close] on the
    wrapper in the meantime. *)
Inductive loop_event : Type :=
| RawAccept (c : Conn)
| RawAcceptError (err : error)
| CloseCalled.

(** What [loop] does: it starts the unit of work of a connection with
    [go], or it logs ["accept net.Conn error"]. *)
Inductive loop_action : Type :=
| Spawned (c : Conn)
| Logged_accept_error (err : error).

(** [loop] has returned, or it is waiting in the wrapped [Accept]. *)
Inductive loop_end : Type :=
| LoopReturned
| LoopAccepting.

(** [Listener.loop], along a schedule of events. The loop reads the
    listener only for its close signal, and only after an [Accept] error. *)
Fixpoint loop {U P} (l : Listener U P) (sched : list loop_event)
  : list loop_action * loop_end :=
  match sched with
  | [] => ([], LoopAccepting)
  | CloseCalled :: sched' => loop (Close l).2 sched'
  | RawAcceptError err :: sched' =>
      if l_closed l then ([], LoopReturned)
      else
        let '(acts, e) := loop l sched' in
        (Logged_accept_error err :: acts, e)
  | RawAccept c :: sched' =>
      let '(acts, e) := loop l sched' in
      (Spawned c :: acts, e)
  end.

Definition close_called (sched : list loop_event) : bool :=
  existsb (fun ev => match ev with CloseCalled => true | _ => false end) sched.

Definition accept_failed (sched : list loop_event) : bool :=
  existsb (fun ev => match ev with RawAcceptError _ => true | _ => false end)
    sched.

(** The action a loop event leads to while the loop goes on. *)
Definition action_of (ev : loop_event) : option loop_action :=
  match ev with
  | RawAccept c => Some (Spawned c)
  | RawAcceptError err => Some (Logged_accept_error err)
  | CloseCalled => None
  end.

(** A schedule: two clients, an error in between, a [Close], a late
    client, and the error of the closed wrapped listener. *)
Definition sample_schedule : list loop_event :=
  [RawAccept http_conn; RawAcceptError (errorString "too many open files");
   RawAccept unknown_conn; CloseCalled; RawAccept short_conn;
   RawAcceptError os_ErrClosed; RawAccept failing_conn].

Section AcceptLoop.
Context {U P : Type}.

Implicit Types (l : Listener U P) (sched : list loop_event).

Lemma Close_closed l : l_closed (Close l).2 = true.
Proof. unfold Close. by destruct (l_closed l) eqn:E. Qed.

Lemma Close_when_closed l : l_closed l = true -> (Close l).2 = l.
Proof. unfold Close. by intros ->. Qed.

(** X10. Until [Close] is called the loop does not return: every error of
    the wrapped [Accept] is logged, every accepted connection gets its
    unit of work, in the order of the events. *)
Theorem loop_keeps_accepting_while_open l sched :
  l_closed l = false -> close_called sched = false ->
  loop l sched = (omap action_of sched, LoopAccepting).
Proof.
  intros Hopen. induction sched as [|ev sched IH]; [done|].
  destruct ev as [c|err|]; simpl; [| |done].
  - intros Hs. by rewrite (IH Hs).
  - intros Hs. by rewrite Hopen, (IH Hs).
Qed.

(** X11. After the close signal the loop still starts a unit of work for
    every connection the wrapped listener hands out; at the first error of
    the wrapped [Accept] it returns, logging nothing, and whatever comes
    later is not accepted. *)
Theorem loop_after_close_spawns_until_error l s1 err s2 :
  l_closed l = true -> accept_failed s1 = false ->
  loop l (s1 ++ RawAcceptError err :: s2)
  = (omap action_of s1, LoopReturned) /\
  Forall (fun a => exists c, a = Spawned c) (omap action_of s1).
Proof.
  revert l. induction s1 as [|ev s1 IH]; intros l Hcl Hs.
  - simpl. by rewrite Hcl.
  - destruct ev as [c|err'|]; simpl in *; [|done|].
    + destruct (IH l Hcl Hs) as [-> Hall]. split; [done|].
      constructor; [by eexists|done].
    + rewrite (Close_when_closed l Hcl). by apply IH.
Qed.

(** X12. The loop returns exactly when the wrapped [Accept] fails after
    the close signal has fired: a [Close] alone does not end it, and
    neither does an error while the listener is open. *)
Theorem loop_returns_iff l sched :
  (loop l sched).2 = LoopReturned <->
  exists s1 err s2,
    sched = s1 ++ RawAcceptError err :: s2 /\
    l_closed l || close_called s1 = true.
Proof.
  revert l. induction sched as [|ev sched IH]; intros l.
  - simpl. split; [done|]. intros (s1 & err & s2 & H & _).
    by destruct s1.
  - destruct ev as [c|err|]; simpl.
    + destruct (loop l sched) as [acts e] eqn:E. simpl.
      specialize (IH l). rewrite E in IH. simpl in IH. rewrite IH.
      split.
      * intros (s1 & err & s2 & -> & Hcl).
        by exists (RawAccept c :: s1), err, s2.
      * intros (s1 & err & s2 & Heq & Hcl).
        destruct s1 as [|ev s1]; [done|]. injection Heq as <- ->.
        by exists s1, err, s2.
    + destruct (l_closed l) eqn:Hl.
      * simpl. split; [|done]. intros _. by exists [], err, sched.
      * destruct (loop l sched) as [acts e] eqn:E. simpl.
        specialize (IH l). rewrite E, Hl in IH. simpl in IH. rewrite IH.
        split.
        -- intros (s1 & err' & s2 & -> & Hcl).
           by exists (RawAcceptError err :: s1), err', s2.
        -- intros (s1 & err' & s2 & Heq & Hcl).
           destruct s1 as [|ev s1]; [done|]. injection Heq as <- ->.
           by exists s1, err', s2.
    + rewrite IH, Close_closed. split.
      * intros (s1 & err & s2 & -> & _).
        exists (CloseCalled :: s1), err, s2. split; [done|].
        simpl. by rewrite orb_true_r.
      * intros (s1 & err & s2 & Heq & _).
        destruct s1 as [|ev s1]; [done|]. injection Heq as <- ->.
        by exists s1, err, s2.
Qed.

End AcceptLoop.

(** * The HTTP handler of [modules/handler/handler.go] *)

(** [strings.HasPrefix] and [strings.TrimPrefix], on the bytes of the
    strings. *)
Fixpoint HasPrefix (s prefix : gostring) {struct prefix} : bool :=
  match prefix, s with
  | [], _ => true
  | _ :: _, [] => false
  | p :: prefix', x :: s' => bool_decide (x = p) && HasPrefix s' prefix'
  end.

Definition TrimPrefix (s prefix : gostring) : gostring :=
  if HasPrefix s prefix then drop (length prefix) s else s.

(** The bytes of ["Basic "]. *)
Definition Basic : gostring := [x42; x61; x73; x69; x63; x20].

(** [io.ErrUnexpectedEOF], which is [errors.New("unexpected EOF")]. *)
Definition io_ErrUnexpectedEOF : error := errorString "unexpected EOF".

(** The loop of [io.ReadAtLeast],
    [for n < min && err == nil { nn, err = r.Read(buf[n:]); n += nn }],
    on the script of the connection: a read on the exhausted script returns
    [(0, io.EOF)] as in [Conn_Read]. The reads of the script deliver at
    most one byte each, whatever the room in [buf[n:]]. *)
Fixpoint ReadAtLeast_loop (rs : list ReadResult) (buf : list byte)
    (n min : nat) : nat * option error * list byte * list ReadResult :=
  if min <=? n then (n, None, buf, rs) else
  match rs with
  | [] => (n, Some io_EOF, buf, [])
  | r :: rest =>
      let buf1 := match rr_byte r with Some x => <[n:=x]> buf | None => buf end in
      let n1 := match rr_byte r with Some _ => n + 1 | None => n end in
      match rr_err r with
      | Some e => (n1, Some e, buf1, rest)
      | None => ReadAtLeast_loop rest buf1 n1 min
      end
  end.

(** [io.ReadFull(c, buf)], which is [io.ReadAtLeast(c, buf, len(buf))]:
    after the loop the error is dropped when [n >= min], and an [io.EOF]
    (compared with [==]) after some bytes becomes [io.ErrUnexpectedEOF]. *)
Definition ReadFull (c : Conn) (buf : list byte)
  : nat * option error * list byte * Conn :=
  let min := length buf in
  let '(n, err, buf1, rs) := ReadAtLeast_loop (c_reads c) buf 0 min in
  let err1 :=
    if min <=? n then None
    else match err with
         | Some io_EOF => if 0 <? n then Some io_ErrUnexpectedEOF else err
         | _ => err
         end in
  (n, err1, buf1, set_reads c rs).

(** What the handler writes to its logger. *)
Inductive handler_log : Type :=
| Info_handle_http (proto : Z) (remote : string)
| Error_handle_http (proto : Z) (err : error)
| Error_read_header (err : error)
| Info_handle_websocket (remote : string)
| Error_handle_websocket (err : error).

Record Handler (U P : Type) : Type := mkHandler {
  h_ProxyName : string;
  h_WebSocket : bool;
  h_Connect : bool;
  h_Verbose : bool;
  h_upstream : U;
  h_proxy : P;
  h_logger : list handler_log
}.

Arguments mkHandler {U P}.
Arguments h_ProxyName {U P}.
Arguments h_WebSocket {U P}.
Arguments h_Connect {U P}.
Arguments h_Verbose {U P}.
Arguments h_upstream {U P}.
Arguments h_proxy {U P}.
Arguments h_logger {U P}.

Definition hlog {U P} (m : Handler U P) (e : handler_log) : Handler U P :=
  mkHandler (h_ProxyName m) (h_WebSocket m) (h_Connect m) (h_Verbose m)
    (h_upstream m) (h_proxy m) (h_logger m ++ [e]).

Definition set_h_upstream {U P} (m : Handler U P) (up : U) : Handler U P :=
  mkHandler (h_ProxyName m) (h_WebSocket m) (h_Connect m) (h_Verbose m)
    up (h_proxy m) (h_logger m).

(** What [ServeHTTP] reads of the request and of the response writer:
    [r_ProxyAuthorization] is [r.Header.Get("Proxy-Authorization")],
    [r_Upgrade] is what [m.upgrader.Upgrade(w, r, nil)] returns (the
    connection as wrapped by [websocket.NewConn], or the error), and
    [w_Flusher] tells whether [w] implements [http.Flusher]. *)
Record Request : Type := mkRequest {
  r_Method : string;
  r_ProtoMajor : Z;
  r_ProxyAuthorization : gostring;
  r_RemoteAddr : string;
  r_Body : Conn;
  r_IsWebSocketUpgrade : bool;
  r_Upgrade : Conn + error;
  w_Flusher : bool
}.

Definition set_ProxyAuthorization (r : Request) (v : gostring) : Request :=
  mkRequest (r_Method r) (r_ProtoMajor r) v (r_RemoteAddr r) (r_Body r)
    (r_IsWebSocketUpgrade r) (r_Upgrade r) (w_Flusher r).

(** How [ServeHTTP] ends: it returns an error or nil, it returns what
    [next.ServeHTTP(w, r)] returns, or the type assertion
    [w.(http.Flusher)] of [NewFlushWriter] panics. *)
Inductive serve_end : Type :=
| Served (err : option error)
| CalledNext
| ServePanicked.

(** [Handler.ServeHTTP]. Beside the handler and the way it ends, the
    result has the stream that was read, as it is left: the request body
    after the relay, or the websocket connection, closed. *)
Definition ServeHTTP {U P} `{Upstream U} `{Trojan P}
    (m : Handler U P) (r : Request)
  : Handler U P * option Conn * serve_end :=
  if h_Connect m && bool_decide (r_Method r = "CONNECT"%string) then
    if bool_decide (r_ProtoMajor r = 1%Z) then (m, None, CalledNext) else
    let auth := TrimPrefix (r_ProxyAuthorization r) Basic in
    if negb (length auth =? HeaderLen) then (m, None, CalledNext) else
    if negb (Validate (h_upstream m) auth) then (m, None, CalledNext) else
    let m1 :=
      if h_Verbose m
      then hlog m (Info_handle_http (r_ProtoMajor r) (r_RemoteAddr r))
      else m in
    if negb (w_Flusher r) then (m1, None, ServePanicked) else
    let '(nr, nw, err, body) := HandleWithDialer (r_Body r) (h_proxy m1) in
    let m2 :=
      match err with
      | Some e => hlog m1 (Error_handle_http (r_ProtoMajor r) e)
      | None => m1
      end in
    (set_h_upstream m2 (Consume (h_upstream m2) auth nr nw),
     Some body, Served None)
  else if h_WebSocket m && r_IsWebSocketUpgrade r then
    match r_Upgrade r with
    | inr err => (m, None, Served (Some err))
    | inl c =>
        (* defer c.Close() *)
        let '(_, err, b, c1) := ReadFull c (replicate (HeaderLen + 2) x00) in
        match err with
        | Some e =>
            (hlog m (Error_read_header e), Some (Conn_Close c1), Served None)
        | None =>
            let key := ByteSliceToString (take HeaderLen b) in
            if negb (Validate (h_upstream m) key)
            then (m, Some (Conn_Close c1), Served None)
            else
              let m1 :=
                if h_Verbose m
                then hlog m (Info_handle_websocket (r_RemoteAddr r))
                else m in
              let '(nr, nw, err, c2) := HandleWithDialer c1 (h_proxy m1) in
              let m2 :=
                match err with
                | Some e => hlog m1 (Error_handle_websocket e)
                | None => m1
                end in
              (set_h_upstream m2 (Consume (h_upstream m2) key nr nw),
               Some (Conn_Close c2), Served None)
        end
    end
  else (m, None, CalledNext).

(** ** Sample requests *)

Definition sample_handler : Handler (gmap gostring (Z * Z)) unit :=
  mkHandler "" true true false sample_ledger tt [].

(** An HTTP/2 CONNECT whose body carries the connect command and a
    payload. *)
Definition connect_request (auth : gostring) : Request :=
  mkRequest "CONNECT" 2 auth "198.51.100.7:40000"
    (sample_conn (map one_byte (x01 :: http_request))) false
    (inr (errorString "not a websocket handshake")) true.

(** A websocket upgrade whose connection has the reads [rs]. *)
Definition websocket_request (rs : list ReadResult) : Request :=
  mkRequest "GET" 1 [] "198.51.100.7:40000" (sample_conn []) true
    (inl (sample_conn rs)) true.

Section HandlerProperties.
Context {U P : Type} `{!Upstream U} `{!Trojan P}.

Implicit Types (m : Handler U P) (req : Request) (c : Conn).
Implicit Types (evs rest rs : list ReadResult) (hb buf : list byte).

(** ** [strings.TrimPrefix] *)

Lemma HasPrefix_app prefix : forall s, HasPrefix (prefix ++ s) prefix = true.
Proof.
  induction prefix as [|p prefix IH]; intros s; [done|].
  simpl. rewrite bool_decide_eq_true_2 by done. by rewrite IH.
Qed.

Lemma TrimPrefix_app prefix s : TrimPrefix (prefix ++ s) prefix = s.
Proof.
  unfold TrimPrefix. rewrite HasPrefix_app. by rewrite drop_app_length.
Qed.

Lemma TrimPrefix_none prefix s :
  HasPrefix s prefix = false -> TrimPrefix s prefix = s.
Proof. unfold TrimPrefix. by intros ->. Qed.

(** ** [io.ReadFull] *)

Lemma ReadAtLeast_loop_done rs buf n min :
  min <= n -> ReadAtLeast_loop rs buf n min = (n, None, buf, rs).
Proof.
  intros Hle. destruct rs; simpl;
    by assert ((min <=? n) = true) as -> by by apply Nat.leb_le.
Qed.

Lemma ReadAtLeast_loop_length rs : forall buf n min,
  length (ReadAtLeast_loop rs buf n min).1.2 = length buf.
Proof.
  induction rs as [|r rs IH]; intros buf n min; simpl.
  - by destruct (min <=? n).
  - destruct (min <=? n); [done|].
    assert (Hb : length (match rr_byte r with
                         | Some x => <[n:=x]> buf
                         | None => buf
                         end) = length buf).
    { destruct (rr_byte r); [apply length_insert|done]. }
    destruct (rr_err r); [done|]. by rewrite IH.
Qed.

(** Reads without error are stored byte after byte, a read of zero bytes
    is made again, and the loop stops with the read that fills the
    buffer. *)
Lemma ReadAtLeast_loop_fill evs : forall hb j x rest,
  Forall (fun r => rr_err r = None) evs ->
  ReadAtLeast_loop (evs ++ one_byte x :: rest)
    (hb ++ replicate (length (conn_stream evs) + 1 + j) x00)
    (length hb) (length hb + length (conn_stream evs) + 1)
  = (length hb + length (conn_stream evs) + 1, None,
     hb ++ conn_stream evs ++ [x] ++ replicate j x00, rest).
Proof.
  induction evs as [|r evs IH]; intros hb j x rest Hall.
  - cbn [app conn_stream length ReadAtLeast_loop one_byte rr_byte rr_err].
    assert ((length hb + 0 + 1 <=? length hb) = false) as ->
      by (apply Nat.leb_gt; lia).
    rewrite ReadAtLeast_loop_done by lia.
    rewrite insert_app_r_alt by lia.
    replace (length hb - length hb) with 0 by lia.
    by rewrite Nat.add_0_r.
  - inversion Hall as [|? ? Hr Hevs]; subst.
    cbn [app ReadAtLeast_loop conn_stream].
    assert ((length hb + length (conn_stream (r :: evs)) + 1 <=? length hb)
            = false) as Hlt by (apply Nat.leb_gt; lia).
    cbn [conn_stream] in Hlt. rewrite Hlt, Hr.
    destruct (rr_byte r) as [y|].
    + cbn [length]. rewrite insert_app_r_alt by lia.
      replace (length hb - length hb) with 0 by lia.
      replace (S (length (conn_stream evs)) + 1 + j)
        with (S (length (conn_stream evs) + 1 + j)) by lia.
      cbn [replicate list_insert].
      change (<[0:=y]> (x00 :: ?l)) with (y :: l).
      rewrite (cons_middle y hb), app_assoc.
      specialize (IH (hb ++ [y]) j x rest Hevs).
      rewrite length_app in IH. simpl in IH.
      replace (length hb + S (length (conn_stream evs)) + 1)
        with (length hb + 1 + length (conn_stream evs) + 1) by lia.
      replace (length hb + 1) with (length hb + 1) in IH by done.
      rewrite IH. by rewrite <- !app_assoc.
    + by apply IH.
Qed.

(** Reads without error that end before the buffer is full: the loop
    runs into the end of the stream. *)
Lemma ReadAtLeast_loop_short evs : forall hb j min,
  Forall (fun r => rr_err r = None) evs ->
  length hb + length (conn_stream evs) < min ->
  ReadAtLeast_loop evs
    (hb ++ replicate (length (conn_stream evs) + j) x00) (length hb) min
  = (length hb + length (conn_stream evs), Some io_EOF,
     hb ++ conn_stream evs ++ replicate j x00, []).
Proof.
  induction evs as [|r evs IH]; intros hb j min Hall Hlt.
  - simpl in *.
    assert ((min <=? length hb) = false) as -> by (apply Nat.leb_gt; lia).
    by rewrite Nat.add_0_r.
  - inversion Hall as [|? ? Hr Hevs]; subst.
    cbn [ReadAtLeast_loop conn_stream] in *.
    assert ((min <=? length hb) = false) as -> by (apply Nat.leb_gt; lia).
    rewrite Hr. destruct (rr_byte r) as [y|].
    + cbn [length] in *. rewrite insert_app_r_alt by lia.
      replace (length hb - length hb) with 0 by lia.
      cbn [Nat.add replicate list_insert].
      change (<[0:=y]> (x00 :: ?l)) with (y :: l).
      rewrite (cons_middle y hb), app_assoc.
      specialize (IH (hb ++ [y]) j min Hevs).
      rewrite length_app in IH. simpl in IH.
      rewrite IH by lia. rewrite <- !app_assoc. simpl.
      do 3 f_equal. lia.
    + by apply IH.
Qed.

Lemma ReadFull_length c buf : length (ReadFull c buf).1.2 = length buf.
Proof.
  unfold ReadFull.
  pose proof (ReadAtLeast_loop_length (c_reads c) buf 0 (length buf)) as Hl.
  by destruct (ReadAtLeast_loop _ _ _ _) as [[[n err] buf1] rs].
Qed.

Lemma ReadFull_fill c evs x rest N :
  c_reads c = evs ++ one_byte x :: rest ->
  Forall (fun r => rr_err r = None) evs ->
  length (conn_stream evs) + 1 = N ->
  ReadFull c (replicate N x00)
  = (N, None, conn_stream evs ++ [x], set_reads c rest).
Proof.
  intros Hc Hall <-. unfold ReadFull. rewrite Hc, length_replicate.
  pose proof (ReadAtLeast_loop_fill evs [] 0 x rest Hall) as Hfill.
  simpl in Hfill. rewrite Nat.add_0_r in Hfill. rewrite Hfill.
  rewrite Nat.leb_refl. by rewrite ?app_nil_r.
Qed.

Lemma ReadFull_short c evs N :
  c_reads c = evs -> Forall (fun r => rr_err r = None) evs ->
  length (conn_stream evs) < N ->
  ReadFull c (replicate N x00)
  = (length (conn_stream evs),
     Some (if conn_stream evs is [] then io_EOF else io_ErrUnexpectedEOF),
     conn_stream evs ++ replicate (N - length (conn_stream evs)) x00,
     set_reads c []).
Proof.
  intros Hc Hall Hlt. unfold ReadFull. rewrite Hc, length_replicate.
  pose proof (ReadAtLeast_loop_short evs []
                (N - length (conn_stream evs)) N Hall) as Hshort.
  simpl in Hshort.
  replace (length (conn_stream evs) + (N - length (conn_stream evs)))
    with N in Hshort by lia.
  rewrite Hshort by lia.
  assert ((N <=? length (conn_stream evs)) = false) as ->
    by (apply Nat.leb_gt; lia).
  by destruct (conn_stream evs).
Qed.

(** ** The handler *)

(** X13. [ServeHTTP] leaves the ledger as it was unless [Validate]
    accepted an [L]-byte key; then the only change is one [Consume] under
    that key. When it passes the request to the next handler it has
    changed nothing and read nothing. *)
Theorem ServeHTTP_changes_ledger_only_by_consume m req :
  ((ServeHTTP m req).2 = CalledNext ->
   (ServeHTTP m req).1.1 = m /\ (ServeHTTP m req).1.2 = None) /\
  (h_upstream (ServeHTTP m req).1.1 = h_upstream m
   \/ exists key nr nw,
        Validate (h_upstream m) key = true /\ length key = HeaderLen /\
        h_upstream (ServeHTTP m req).1.1
        = Consume (h_upstream m) key nr nw).
Proof.
  unfold ServeHTTP.
  destruct (h_Connect m && bool_decide (r_Method req = "CONNECT"%string)).
  - destruct (bool_decide (r_ProtoMajor req = 1%Z)); [by split; [|left]|].
    destruct (length (TrimPrefix (r_ProxyAuthorization req) Basic)
              =? HeaderLen) eqn:Hlen; [|by split; [|left]].
    apply Nat.eqb_eq in Hlen. cbn [negb].
    destruct (Validate (h_upstream m)
                (TrimPrefix (r_ProxyAuthorization req) Basic)) eqn:Hv;
      [|by split; [|left]].
    cbn [negb].
    destruct (w_Flusher req); cbn [negb].
    + destruct (HandleWithDialer _ _) as [[[nr nw] err] body].
      split; [done|]. right. eexists _, nr, nw.
      split; [exact Hv|]. split; [exact Hlen|].
      by destruct (h_Verbose m), err.
    + split; [done|]. left. by destruct (h_Verbose m).
  - destruct (h_WebSocket m && r_IsWebSocketUpgrade req); [|by split; [|left]].
    destruct (r_Upgrade req) as [c|err]; [|by split; [|left]].
    pose proof (ReadFull_length c (replicate (HeaderLen + 2) x00)) as Hb.
    rewrite length_replicate in Hb.
    destruct (ReadFull c _) as [[[n err] b] c1]. simpl in Hb.
    destruct err as [e|]; [by split; [|left]|].
    destruct (Validate (h_upstream m)
                (ByteSliceToString (take HeaderLen b))) eqn:Hv;
      [|by split; [|left]].
    cbn [negb].
    destruct (HandleWithDialer _ _) as [[[nr nw] err] c2].
    split; [done|]. right. eexists _, nr, nw.
    split; [exact Hv|]. split.
    + unfold ByteSliceToString. rewrite length_take. lia.
    + by destruct (h_Verbose m), err.
Qed.

(** X14. The ["Basic "] in front of the key of a CONNECT request is
    optional: a [Proxy-Authorization] value that does not start with it is
    handled exactly as the same value with ["Basic "] in front. *)
Theorem Basic_prefix_is_optional m req auth :
  HasPrefix auth Basic = false ->
  ServeHTTP m (set_ProxyAuthorization req (Basic ++ auth))
  = ServeHTTP m (set_ProxyAuthorization req auth).
Proof.
  intros Hno. unfold ServeHTTP.
  cbn [set_ProxyAuthorization r_Method r_ProtoMajor r_ProxyAuthorization
       r_RemoteAddr r_Body r_IsWebSocketUpgrade r_Upgrade w_Flusher].
  by rewrite TrimPrefix_app, (TrimPrefix_none Basic auth Hno).
Qed.

(** X15. [ServeHTTP] passes a request to the next handler in exactly two
    situations: it is a CONNECT request handled by the CONNECT branch that
    is HTTP/1, or whose key has not [L] bytes, or whose key the ledger
    does not validate; or it is no such CONNECT request and no websocket
    upgrade handled by the websocket branch. A CONNECT request is never
    tried as a websocket upgrade, and a websocket upgrade never reaches
    the next handler. *)
Theorem ServeHTTP_calls_next_iff m req :
  (ServeHTTP m req).2 = CalledNext <->
  if h_Connect m && bool_decide (r_Method req = "CONNECT"%string)
  then r_ProtoMajor req = 1%Z \/
       length (TrimPrefix (r_ProxyAuthorization req) Basic) <> HeaderLen \/
       Validate (h_upstream m) (TrimPrefix (r_ProxyAuthorization req) Basic)
       = false
  else h_WebSocket m && r_IsWebSocketUpgrade req = false.
Proof.
  unfold ServeHTTP.
  destruct (h_Connect m && bool_decide (r_Method req = "CONNECT"%string)).
  - destruct (bool_decide (r_ProtoMajor req = 1%Z)) eqn:Hp.
    { apply bool_decide_eq_true_1 in Hp. split; [by left|done]. }
    apply bool_decide_eq_false_1 in Hp.
    destruct (length (TrimPrefix (r_ProxyAuthorization req) Basic)
              =? HeaderLen) eqn:Hlen; cbn [negb].
    2: { apply Nat.eqb_neq in Hlen. split; [by right; left|done]. }
    apply Nat.eqb_eq in Hlen.
    destruct (Validate (h_upstream m)
                (TrimPrefix (r_ProxyAuthorization req) Basic)) eqn:Hv;
      cbn [negb].
    2: { split; [by right; right|done]. }
    assert (Hnot : ~ (r_ProtoMajor req = 1%Z \/
                      length (TrimPrefix (r_ProxyAuthorization req) Basic)
                      <> HeaderLen \/ true = false))
      by (intros [?|[?|?]]; done).
    destruct (w_Flusher req); cbn [negb].
    + destruct (HandleWithDialer _ _) as [[[nr nw] err] body].
      split; [done|]. intros H. by destruct Hnot.
    + split; [done|]. intros H. by destruct Hnot.
  - destruct (h_WebSocket m && r_IsWebSocketUpgrade req); [|done].
    split; [|done].
    destruct (r_Upgrade req) as [c|err]; [|done].
    destruct (ReadFull c _) as [[[n err] b] c1].
    destruct err as [e|]; [done|].
    destruct (negb _); [done|].
    by destruct (HandleWithDialer _ _) as [[[nr nw] err] c2].
Qed.

(** X16. A websocket connection that ends before [L+2] bytes have
    arrived is logged with the error of [io.ReadFull] (end-of-stream when
    nothing arrived, unexpected end-of-stream otherwise) and closed;
    [ServeHTTP] returns nil, and the ledger is not consulted. *)
Theorem websocket_short_header_is_logged m req c :
  h_Connect m && bool_decide (r_Method req = "CONNECT"%string) = false ->
  h_WebSocket m && r_IsWebSocketUpgrade req = true ->
  r_Upgrade req = inl c ->
  Forall (fun r => rr_err r = None) (c_reads c) ->
  length (conn_stream (c_reads c)) < HeaderLen + 2 ->
  ServeHTTP m req
  = (hlog m (Error_read_header
               (if conn_stream (c_reads c) is []
                then io_EOF else io_ErrUnexpectedEOF)),
     Some (Conn_Close (set_reads c [])), Served None).
Proof.
  intros Hconnect Hws Hup Hall Hlen. unfold ServeHTTP.
  rewrite Hconnect, Hws, Hup.
  by rewrite (ReadFull_short c (c_reads c) (HeaderLen + 2)).
Qed.

(** X17. On the websocket branch the key is the first [L] bytes of the
    stream however they arrive: reads of zero bytes are made again and
    leave no 0x00 in the header. With the [L+2] header bytes read, an
    unknown key ends the request silently (connection closed, nil
    returned, next handler not called); a validated key is relayed on the
    rest of the stream, the counts are consumed and the connection is
    closed. *)
Theorem websocket_key_is_stream_prefix m req c evs x rest :
  h_Connect m && bool_decide (r_Method req = "CONNECT"%string) = false ->
  h_WebSocket m && r_IsWebSocketUpgrade req = true ->
  r_Upgrade req = inl c ->
  c_reads c = evs ++ one_byte x :: rest ->
  Forall (fun r => rr_err r = None) evs ->
  length (conn_stream evs) = HeaderLen + 1 ->
  let key := take HeaderLen (conn_stream (c_reads c)) in
  ServeHTTP m req =
    if Validate (h_upstream m) key then
      let m1 :=
        if h_Verbose m
        then hlog m (Info_handle_websocket (r_RemoteAddr req))
        else m in
      let '(nr, nw, err, c2) :=
        HandleWithDialer (set_reads c rest) (h_proxy m) in
      let m2 :=
        match err with
        | Some e => hlog m1 (Error_handle_websocket e)
        | None => m1
        end in
      (set_h_upstream m2 (Consume (h_upstream m) key nr nw),
       Some (Conn_Close c2), Served None)
    else (m, Some (Conn_Close (set_reads c rest)), Served None).
Proof.
  intros Hconnect Hws Hup Hc Hall Hlen key. unfold ServeHTTP.
  rewrite Hconnect, Hws, Hup.
  rewrite (ReadFull_fill c evs x rest (HeaderLen + 2)) by (done || lia).
  assert (Hkey : ByteSliceToString (take HeaderLen (conn_stream evs ++ [x]))
                 = key).
  { subst key. unfold ByteSliceToString.
    rewrite Hc, conn_stream_app. simpl.
    rewrite !take_app_le by lia. done. }
  rewrite Hkey.
  destruct (Validate (h_upstream m) key); cbn [negb]; [|done].
  assert (h_proxy (if h_Verbose m
                   then hlog m (Info_handle_websocket (r_RemoteAddr req))
                   else m) = h_proxy m) as -> by by destruct (h_Verbose m).
  destruct (HandleWithDialer _ _) as [[[nr nw] err] c2].
  by destruct (h_Verbose m), err.
Qed.

(** X18. A CONNECT request over HTTP/2 or later with a validated
    [L]-byte key never reaches the next handler. When the response writer
    is no [http.Flusher] the handler panics after the verbose log and
    before the relay: the log has at most the verbose entry, the body is
    not read, nothing is consumed and the ledger is unchanged. Otherwise
    the body is relayed, the counts are consumed under the key and nil is
    returned, whether or not the relay failed. *)
Theorem validated_CONNECT_is_relayed_or_panics m req :
  h_Connect m = true -> r_Method req = "CONNECT"%string ->
  r_ProtoMajor req <> 1%Z ->
  length (TrimPrefix (r_ProxyAuthorization req) Basic) = HeaderLen ->
  Validate (h_upstream m) (TrimPrefix (r_ProxyAuthorization req) Basic)
  = true ->
  let key := TrimPrefix (r_ProxyAuthorization req) Basic in
  let m1 :=
    if h_Verbose m
    then hlog m (Info_handle_http (r_ProtoMajor req) (r_RemoteAddr req))
    else m in
  if w_Flusher req then
    exists nr nw err body,
      HandleWithDialer (r_Body req) (h_proxy m) = (nr, nw, err, body) /\
      ServeHTTP m req
      = (set_h_upstream
           match err with
           | Some e => hlog m1 (Error_handle_http (r_ProtoMajor req) e)
           | None => m1
           end
           (Consume (h_upstream m) key nr nw),
         Some body, Served None) /\
      (ServeHTTP m req).2 = Served None /\
      (ServeHTTP m req).1.2 = Some body /\
      h_upstream (ServeHTTP m req).1.1 = Consume (h_upstream m) key nr nw /\
      h_logger (ServeHTTP m req).1.1
      = h_logger m
        ++ (if h_Verbose m
            then [Info_handle_http (r_ProtoMajor req) (r_RemoteAddr req)]
            else [])
        ++ (if err is Some e
            then [Error_handle_http (r_ProtoMajor req) e] else [])
  else
    ServeHTTP m req = (m1, None, ServePanicked) /\
    (ServeHTTP m req).2 = ServePanicked /\
    (ServeHTTP m req).1.2 = None /\
    h_upstream (ServeHTTP m req).1.1 = h_upstream m /\
    h_logger (ServeHTTP m req).1.1
    = h_logger m
      ++ (if h_Verbose m
          then [Info_handle_http (r_ProtoMajor req) (r_RemoteAddr req)]
          else []).
Proof.
  intros Hconnect Hmethod Hproto Hlen Hv key m1. subst key m1.
  unfold ServeHTTP.
  rewrite Hconnect, Hmethod.
  rewrite (bool_decide_eq_true_2 ("CONNECT"%string = "CONNECT"%string))
    by done.
  rewrite (bool_decide_eq_false_2 _ Hproto). cbn [andb].
  rewrite Hlen, Nat.eqb_refl, Hv. cbn [negb].
  destruct (w_Flusher req); cbn [negb].
  - assert (h_proxy (if h_Verbose m
                     then hlog m (Info_handle_http (r_ProtoMajor req)
                                    (r_RemoteAddr req))
                     else m) = h_proxy m) as -> by by destruct (h_Verbose m).
    destruct (HandleWithDialer _ _) as [[[nr nw] err] body].
    exists nr, nw, err, body. split; [done|]. split.
    { by destruct (h_Verbose m), err. }
    split; [done|]. split; [done|].
    destruct (h_Verbose m), err; simpl; rewrite ?app_nil_r, <- ?app_assoc;
      done.
  - destruct (h_Verbose m); simpl; rewrite ?app_nil_r; done.
Qed.

End HandlerProperties.

(** * The administration endpoints *)

(** What the handlers read of the request: the method and what
    [io.ReadAll(r.Body)] returns. *)
Record AdminRequest : Type := mkAdminRequest {
  a_Method : string;
  a_Body : list byte + error
}.

(** What the handlers do to the response writer: the status given to
    [w.WriteHeader] and the users given to [json.NewEncoder(w).Encode],
    each a key with its two counters. *)
Record AdminResponse : Type := mkAdminResponse {
  w_status : option Z;
  w_users : option (list (gostring * Z * Z))
}.

Definition no_response : AdminResponse := mkAdminResponse None None.

(** [http.StatusOK] *)
Definition StatusOK : Z := 200.

(** A stand-in for [json.Unmarshal] in the examples: the body is the
    password, and a body that starts with ['!'] does not decode. *)
Definition sample_Unmarshal (b : list byte) : gostring + error :=
  match b with
  | x21 :: _ => inr (errorString "invalid character '!'")
  | _ => inl b
  end.

(** ** [modules/admin/admin.go] *)

Module AppAdmin.

(** The methods of [app.Upstream] that the endpoints call; [Range] is the
    list of the entries its callback is called with, in order. *)
Class UpstreamStore (U : Type) : Type := {
  Add : U -> gostring -> U;
  Delete : U -> gostring -> U;
  Range : U -> list (gostring * Z * Z)
}.

(** [Admin]; [upstream] is nil until [Provision] has found the app. *)
Record Admin (U : Type) : Type := mkAdmin {
  upstream : option U
}.

Arguments mkAdmin {U}.
Arguments upstream {U}.

Section Handlers.
Context {U : Type} `{!UpstreamStore U}.

(** [json.Unmarshal(b, &user)] for [User{Password}]: the password of the
    decoded object, empty when the object has none, or the error. *)
Variable Unmarshal : list byte -> gostring + error.

Definition GetUsers (al : Admin U) (r : AdminRequest)
  : Admin U * AdminResponse * option error :=
  match upstream al with
  | None => (al, no_response, None)
  | Some up =>
      if negb (bool_decide (a_Method r = "GET"%string))
      then (al, no_response,
            Some (errorString "get trojan user method error"))
      else (al, mkAdminResponse (Some StatusOK) (Some (Range up)), None)
  end.

Definition AddUser (al : Admin U) (r : AdminRequest)
  : Admin U * AdminResponse * option error :=
  match upstream al with
  | None => (al, no_response, None)
  | Some up =>
      if negb (bool_decide (a_Method r = "POST"%string))
      then (al, no_response,
            Some (errorString "add trojan user method error"))
      else
        match a_Body r with
        | inr err => (al, no_response, Some err)
        | inl b =>
            match Unmarshal b with
            | inr err => (al, no_response, Some err)
            | inl password =>
                let up1 :=
                  if negb (bool_decide (password = []))
                  then Add up password else up in
                (mkAdmin (Some up1), mkAdminResponse (Some StatusOK) None,
                 None)
            end
        end
  end.

Definition DeleteUser (al : Admin U) (r : AdminRequest)
  : Admin U * AdminResponse * option error :=
  match upstream al with
  | None => (al, no_response, None)
  | Some up =>
      if negb (bool_decide (a_Method r = "DELETE"%string))
      then (al, no_response,
            Some (errorString "delete trojan user method error"))
      else
        match a_Body r with
        | inr err => (al, no_response, Some err)
        | inl b =>
            match Unmarshal b with
            | inr err => (al, no_response, Some err)
            | inl password =>
                let up1 :=
                  if negb (bool_decide (password = []))
                  then Delete up password else up in
                (mkAdmin (Some up1), mkAdminResponse (Some StatusOK) None,
                 None)
            end
        end
  end.

End Handlers.

End AppAdmin.

(** ** [admin.go] of the root package *)

Module TrojanAdmin.

(** The methods of the root package's [Upstream] that the endpoints
    call. *)
Class UpstreamStore (U : Type) : Type := {
  Add : U -> gostring -> U;
  AddKey : U -> gostring -> U;
  Del : U -> gostring -> U;
  DelKey : U -> gostring -> U;
  Range : U -> list (gostring * Z * Z)
}.

Record Admin (U : Type) : Type := mkAdmin {
  Upstream : U
}.

Arguments mkAdmin {U}.
Arguments Upstream {U}.

(** The decoded [User{Password, Key}]. *)
Record User : Type := mkUser {
  Password : gostring;
  Key : gostring
}.

Section Handlers.
Context {U : Type} `{!UpstreamStore U}.

(** [json.Unmarshal(b, &user)] for [User{Password, Key}]. *)
Variable Unmarshal : list byte -> User + error.

Definition GetUsers (al : Admin U) (r : AdminRequest)
  : Admin U * AdminResponse * option error :=
  if negb (bool_decide (a_Method r = "GET"%string))
  then (al, no_response, Some (errorString "get trojan user method error"))
  else (al, mkAdminResponse (Some StatusOK) (Some (Range (Upstream al))),
        None).

Definition AddUser (al : Admin U) (r : AdminRequest)
  : Admin U * AdminResponse * option error :=
  if negb (bool_decide (a_Method r = "POST"%string))
  then (al, no_response, Some (errorString "add trojan user method error"))
  else
    match a_Body r with
    | inr err => (al, no_response, Some err)
    | inl b =>
        match Unmarshal b with
        | inr err => (al, no_response, Some err)
        | inl user =>
            if negb (bool_decide (Key user = []))
            then (mkAdmin (AddKey (Upstream al) (Key user)),
                  mkAdminResponse (Some StatusOK) None, None)
            else
              let up1 :=
                if negb (bool_decide (Password user = []))
                then Add (Upstream al) (Password user)
                else Upstream al in
              (mkAdmin up1, mkAdminResponse (Some StatusOK) None, None)
        end
    end.

Definition DelUser (al : Admin U) (r : AdminRequest)
  : Admin U * AdminResponse * option error :=
  if negb (bool_decide (a_Method r = "DELETE"%string))
  then (al, no_response,
        Some (errorString "delete trojan user method error"))
  else
    match a_Body r with
    | inr err => (al, no_response, Some err)
    | inl b =>
        match Unmarshal b with
        | inr err => (al, no_response, Some err)
        | inl user =>
            if negb (bool_decide (Key user = []))
            then (mkAdmin (DelKey (Upstream al) (Key user)),
                  mkAdminResponse (Some StatusOK) None, None)
            else
              let up1 :=
                if negb (bool_decide (Password user = []))
                then Del (Upstream al) (Password user)
                else Upstream al in
              (mkAdmin up1, mkAdminResponse (Some StatusOK) None, None)
        end
    end.

End Handlers.

End TrojanAdmin.

(** ** Sample ledger operations *)

(** Modelled from the spec: the hash behind [Add] and [Delete] is not under
    src/. Section 3 asks for a one-way hash of fixed width [L]; this
    stand-in only has the width: the password, cut or padded to 56
    bytes. *)
Definition sample_hash (password : gostring) : gostring :=
  take 56 (password ++ replicate 56 x61).

(** Modelled from the spec: the ledger behind [app.Upstream] is not under
    src/. Section 4.4: [add] derives the key and inserts it with counters
    [(0, 0)] if absent, [delete] removes the entry, [forEach] visits the
    entries. *)
#[global] Instance Ledger_Store
  : AppAdmin.UpstreamStore (gmap gostring (Z * Z)) := {
  AppAdmin.Add led password :=
    match led !! sample_hash password with
    | Some _ => led
    | None => <[sample_hash password := (0%Z, 0%Z)]> led
    end;
  AppAdmin.Delete led password := delete (sample_hash password) led;
  AppAdmin.Range led := (fun e => (e.1, e.2.1, e.2.2)) <$> map_to_list led
}.

(** The bytes of ["secret"]. *)
Definition secret : gostring := [x73; x65; x63; x72; x65; x74].

Definition sample_admin : AppAdmin.Admin (gmap gostring (Z * Z)) :=
  AppAdmin.mkAdmin (Some sample_ledger).

(** ** Properties of [modules/admin/admin.go] *)

Section AppAdminProperties.
Context {U : Type} `{!AppAdmin.UpstreamStore U}.
Variable Unmarshal : list byte -> gostring + error.

(** What every endpoint keeps to: without a ledger it does nothing and
    returns nil; when it returns an error it has changed neither the
    ledger nor the response; when it returns nil with a ledger it has
    written the status 200. *)
Definition answers_well
    (h : AppAdmin.Admin U -> AdminRequest ->
         AppAdmin.Admin U * AdminResponse * option error) : Prop :=
  forall al r,
    match AppAdmin.upstream al, (h al r).2 with
    | None, res => h al r = (al, no_response, None)
    | Some _, Some _ => (h al r).1.1 = al /\ (h al r).1.2 = no_response
    | Some _, None => w_status (h al r).1.2 = Some StatusOK
    end.

(** X19. The three endpoints of [modules/admin] do nothing and return nil
    while the trojan app is not configured, whatever the method or the
    body; with a ledger, a request they refuse (wrong method, unreadable
    body, undecodable JSON) changes neither the ledger nor the response,
    and a request they accept is answered with status 200. *)
Theorem app_admin_endpoints_answer_well :
  answers_well AppAdmin.GetUsers /\
  answers_well (AppAdmin.AddUser Unmarshal) /\
  answers_well (AppAdmin.DeleteUser Unmarshal).
Proof.
  unfold answers_well, AppAdmin.GetUsers, AppAdmin.AddUser,
    AppAdmin.DeleteUser.
  repeat split; intros al r; destruct (AppAdmin.upstream al) as [up|];
    try done; destruct (negb _); try done;
    destruct (a_Body r) as [b|err]; try done;
    by destruct (Unmarshal b).
Qed.

(** X20. What [AddUser] and [DeleteUser] do to the ledger is decided by
    the decoded password alone: an accepted request with an empty
    password leaves the ledger as it was and is still answered with 200;
    with a password there is exactly one [Add], respectively one
    [Delete], of that password. *)
Theorem app_admin_ledger_effect al up r b password :
  AppAdmin.upstream al = Some up ->
  a_Body r = inl b -> Unmarshal b = inl password ->
  (a_Method r = "POST"%string ->
   AppAdmin.AddUser Unmarshal al r
   = (AppAdmin.mkAdmin
        (Some (if decide (password = []) then up
               else AppAdmin.Add up password)),
      mkAdminResponse (Some StatusOK) None, None)) /\
  (a_Method r = "DELETE"%string ->
   AppAdmin.DeleteUser Unmarshal al r
   = (AppAdmin.mkAdmin
        (Some (if decide (password = []) then up
               else AppAdmin.Delete up password)),
      mkAdminResponse (Some StatusOK) None, None)).
Proof.
  intros Hup Hb Hdec.
  unfold AppAdmin.AddUser, AppAdmin.DeleteUser.
  rewrite Hup, Hb, Hdec.
  split; intros ->; rewrite bool_decide_eq_true_2 by done; cbn [negb];
    by destruct (decide (password = []));
      [rewrite bool_decide_eq_true_2|rewrite bool_decide_eq_false_2].
Qed.

End AppAdminProperties.

(** ** Properties of the root package's [admin.go] *)

Section TrojanAdminProperties.
Context {U : Type} `{!TrojanAdmin.UpstreamStore U}.
Variable Unmarshal : list byte -> TrojanAdmin.User + error.

(** X21. In the root package's [AddUser] and [DelUser] a key in the body
    takes precedence: with a non-empty key the ledger sees one [AddKey],
    respectively one [DelKey], of that key, and the password of the same
    body is not used. *)
Theorem trojan_admin_key_takes_precedence al r b user :
  a_Body r = inl b -> Unmarshal b = inl user ->
  TrojanAdmin.Key user <> [] ->
  (a_Method r = "POST"%string ->
   TrojanAdmin.AddUser Unmarshal al r
   = (TrojanAdmin.mkAdmin
        (TrojanAdmin.AddKey (TrojanAdmin.Upstream al) (TrojanAdmin.Key user)),
      mkAdminResponse (Some StatusOK) None, None)) /\
  (a_Method r = "DELETE"%string ->
   TrojanAdmin.DelUser Unmarshal al r
   = (TrojanAdmin.mkAdmin
        (TrojanAdmin.DelKey (TrojanAdmin.Upstream al) (TrojanAdmin.Key user)),
      mkAdminResponse (Some StatusOK) None, None)).
Proof.
  intros Hb Hdec Hkey. unfold TrojanAdmin.AddUser, TrojanAdmin.DelUser.
  rewrite Hb, Hdec.
  split; intros ->; rewrite bool_decide_eq_true_2 by done; cbn [negb];
    by rewrite bool_decide_eq_false_2.
Qed.

(** X22. An endpoint of the root package that returns an error (wrong
    method, unreadable body, undecodable JSON) has changed neither the
    ledger nor the response; one that returns nil has written the status
    200, and [GetUsers] then lists the entries of the ledger in the order
    [Range] visits them, without changing it. *)
Theorem trojan_admin_errors_change_nothing al r :
  let handlers :=
    [TrojanAdmin.GetUsers; TrojanAdmin.AddUser Unmarshal;
     TrojanAdmin.DelUser Unmarshal] in
  Forall (fun h =>
            match (h al r).2 with
            | Some _ => (h al r).1.1 = al /\ (h al r).1.2 = no_response
            | None => w_status (h al r).1.2 = Some StatusOK
            end) handlers /\
  ((TrojanAdmin.GetUsers al r).2 = None ->
   TrojanAdmin.GetUsers al r
   = (al, mkAdminResponse (Some StatusOK)
            (Some (TrojanAdmin.Range (TrojanAdmin.Upstream al))), None)).
Proof.
  unfold TrojanAdmin.GetUsers, TrojanAdmin.AddUser, TrojanAdmin.DelUser.
  split.
  - repeat constructor; destruct (negb _); try done;
      destruct (a_Body r) as [b|err]; try done;
      destruct (Unmarshal b) as [user|err]; try done;
      by destruct (negb _).
  - by destruct (negb _).
Qed.

End TrojanAdminProperties.

(** * The endpoints and the sniffer on one ledger *)

Section AdminAndSniffer.
Context {U P : Type} `{!Upstream U} `{!Trojan P}.
Context `{!AppAdmin.UpstreamStore U}.
Variable Unmarshal : list byte -> gostring + error.

Implicit Types (l : Listener U P) (c : Conn) (al : AppAdmin.Admin U).



(** X24. A password removed through [DeleteUser] closes the sniffer again:
    when the ledger no longer validates the first [L] bytes after
    [Delete], a connection that delivers them, one byte per read and
    without an early line feed, goes to the fallback step with its [L+2]
    bytes, the fallback consumer reads the original stream, and the
    ledger stays as the request left it. *)
Theorem deleted_password_falls_back al up r b password l c hdr rest :
  AppAdmin.upstream al = Some up -> a_Method r = "DELETE"%string ->
  a_Body r = inl b -> Unmarshal b = inl password -> password <> [] ->
  Validate (AppAdmin.Delete up password)
    (ByteSliceToString (take HeaderLen hdr)) = false ->
  AppAdmin.upstream (AppAdmin.DeleteUser Unmarshal al r).1.1
  = Some (l_Upstream l) ->
  c_reads c = map one_byte hdr ++ rest ->
  length hdr = HeaderLen + 2 -> x0a ∉ take (HeaderLen + 1) hdr ->
  loop_conn l c = select_closed_or_send l (set_reads c rest) hdr /\
  rewound_stream (RewindConn (set_reads c rest) hdr)
  = conn_stream (c_reads c) /\
  l_Upstream (loop_conn l c).1.1 = AppAdmin.Delete up password.
Proof.
  intros Hup Hm Hb Hdec Hpw Hv Hshare Hc Hlen Hlf.
  unfold AppAdmin.DeleteUser in Hshare.
  rewrite Hup, Hm, Hb, Hdec in Hshare.
  rewrite bool_decide_eq_true_2 in Hshare by done.
  rewrite bool_decide_eq_false_2 in Hshare by done.
  simpl in Hshare. injection Hshare as Hshare.
  rewrite Hshare in Hv.
  rewrite (loop_conn_not_found_one_byte l c hdr rest) by done.
  split; [done|]. split; [by apply rewound_stream_one_byte|].
  unfold select_closed_or_send, send_conns.
  destruct (l_closed l); [by rewrite Hshare|].
  by destruct (_ <? _); simpl; rewrite Hshare.
Qed.

End AdminAndSniffer.

(** * The further statements at the sample inputs *)

(** Modelled from the spec: the root package's [Upstream] is not under
    src/. Section 4.4: [addKey] inserts a key with counters [(0, 0)] if
    absent, [deleteKey] removes it; [add] and [delete] do the same with the
    key derived from the password. *)
#[global] Instance Ledger_TrojanStore
  : TrojanAdmin.UpstreamStore (gmap gostring (Z * Z)) := {
  TrojanAdmin.AddKey led key :=
    match led !! key with
    | Some _ => led
    | None => <[key := (0%Z, 0%Z)]> led
    end;
  TrojanAdmin.Add led password :=
    match led !! sample_hash password with
    | Some _ => led
    | None => <[sample_hash password := (0%Z, 0%Z)]> led
    end;
  TrojanAdmin.DelKey led key := delete key led;
  TrojanAdmin.Del led password := delete (sample_hash password) led;
  TrojanAdmin.Range led := (fun e => (e.1, e.2.1, e.2.2)) <$> map_to_list led
}.

(** X2: the plain-text client on the open sample listener is handed over
    and left open. *)
Lemma connection_closed_or_handed_over_witness :
  c_closed http_conn = false /\
  c_closed (loop_conn sample_listener http_conn).1.2 = false /\
  exists rc, hands_over sample_listener
               (loop_conn sample_listener http_conn) rc.
Proof.
  assert (H1 : c_closed http_conn = false) by reflexivity.
  split; [exact H1|].
  destruct (connection_closed_or_handed_over sample_listener http_conn H1)
    as [[Hcl _]|(Hop & rc & Hrc & _)].
  - vm_compute in Hcl. discriminate.
  - split; [exact Hop|]. by exists rc.
Defined.

(** X3: after a first read of zero bytes the plain-text client is handed
    over with 17 prefix bytes for 17 reads. *)
Lemma handed_prefix_has_one_byte_per_read_witness :
  let rc :=
    RewindConn
      (set_reads zero_http_conn (map one_byte (drop 16 http_request)))
      (x00 :: take 16 http_request) in
  hands_over sample_listener (loop_conn sample_listener zero_http_conn) rc /\
  exists evs,
    c_reads zero_http_conn = evs ++ c_reads (rc_conn rc) /\
    rc_prefix rc = header_bytes evs.
Proof.
  intros rc.
  assert (H1 : hands_over sample_listener
                 (loop_conn sample_listener zero_http_conn) rc)
    by (left; vm_compute; reflexivity).
  split; [exact H1|].
  destruct (handed_prefix_has_one_byte_per_read sample_listener
              zero_http_conn rc H1) as (evs & Hc & _ & Hp & _).
  by exists evs.
Defined.

(** X5: the bound holds on the sample listener and is kept. *)
Lemma queue_grows_by_at_most_one_witness :
  queue_ok sample_listener /\
  queue_ok (loop_conn sample_listener http_conn).1.1.
Proof.
  assert (H1 : queue_ok sample_listener) by (unfold queue_ok; simpl; lia).
  split; [exact H1|].
  destruct (queue_grows_by_at_most_one sample_listener http_conn true)
    as (_ & _ & _ & Hq).
  exact (proj1 (Hq H1)).
Defined.

(** X6: with the close signal fired the plain-text client is closed. *)
Lemma guarded_routes_close_after_close_signal_witness :
  let evs := map one_byte (take 15 http_request) in
  let rest := map one_byte (drop 16 http_request) in
  l_closed closed_listener = true /\
  falls_back closed_listener http_conn evs rest (take 16 http_request) /\
  loop_conn closed_listener http_conn
  = (closed_listener, Conn_Close (set_reads http_conn rest), Returned).
Proof.
  intros evs rest.
  assert (H1 : l_closed closed_listener = true) by reflexivity.
  assert (H2 : falls_back closed_listener http_conn evs rest
                 (take 16 http_request)).
  { split; [vm_compute; reflexivity|]. left.
    split; [reflexivity|]. split; [by_decide|reflexivity]. }
  exact (conj H1 (conj H2
           (guarded_routes_close_after_close_signal closed_listener
              http_conn evs rest (take 16 http_request) H1 H2))).
Defined.

(** X7: the plain-text client is what the next [Accept] returns. *)
Lemma fallback_connection_reaches_Accept_witness :
  let evs := map one_byte (take 15 http_request) in
  let rest := map one_byte (drop 16 http_request) in
  l_closed sample_listener = false /\ l_conns sample_listener = [] /\
  falls_back sample_listener http_conn evs rest (take 16 http_request) /\
  Accept (loop_conn sample_listener http_conn).1.1 false
  = (AcceptReturns
       (Some (RewindConn (set_reads http_conn rest) (take 16 http_request)))
       None, sample_listener).
Proof.
  intros evs rest.
  assert (H1 : l_closed sample_listener = false) by reflexivity.
  assert (H2 : l_conns sample_listener = []) by reflexivity.
  assert (H3 : falls_back sample_listener http_conn evs rest
                 (take 16 http_request)).
  { split; [vm_compute; reflexivity|]. left.
    split; [reflexivity|]. split; [by_decide|reflexivity]. }
  exact (conj H1 (conj H2 (conj H3
           (proj1 (fallback_connection_reaches_Accept sample_listener
                     http_conn evs rest (take 16 http_request) false
                     H1 H2 H3))))).
Defined.

(** X8: the client whose first read fails is handed over with one byte. *)
Lemma transient_error_hands_over_witness :
  let ev := mkRead None (Some tls_error) in
  let rest := map one_byte http_request in
  c_reads failing_conn = [] ++ ev :: rest /\
  errors_Is_EOF tls_error = false /\
  hands_over closed_listener (loop_conn closed_listener failing_conn)
    (RewindConn (set_reads failing_conn rest) [x00]).
Proof.
  intros ev rest.
  assert (H1 : c_reads failing_conn = [] ++ ev :: rest) by reflexivity.
  assert (H2 : passes 0 [] = true) by reflexivity.
  assert (H3 : length (@nil ReadResult) < HeaderLen + 2) by by_decide.
  assert (H4 : errors_Is_EOF tls_error = false) by reflexivity.
  exact (conj H1 (conj H4
           (proj1 (transient_error_hands_over closed_listener failing_conn
                     [] ev rest tls_error H1 H2 H3 eq_refl H4)))).
Defined.

(** X9: with eight connections pending the plain-text client is parked. *)
Lemma full_queue_parks_the_unit_witness :
  let evs := map one_byte (take 15 http_request) in
  let rest := map one_byte (drop 16 http_request) in
  l_closed full_listener = false /\
  length (l_conns full_listener) = conns_cap /\
  falls_back full_listener http_conn evs rest (take 16 http_request) /\
  loop_conn full_listener http_conn
  = (full_listener, set_reads http_conn rest,
     BlockedSending
       (RewindConn (set_reads http_conn rest) (take 16 http_request))).
Proof.
  intros evs rest.
  assert (H1 : l_closed full_listener = false) by reflexivity.
  assert (H2 : length (l_conns full_listener) = conns_cap) by reflexivity.
  assert (H3 : falls_back full_listener http_conn evs rest
                 (take 16 http_request)).
  { split; [vm_compute; reflexivity|]. left.
    split; [reflexivity|]. split; [by_decide|reflexivity]. }
  exact (conj H1 (conj H2 (conj H3
           (proj1 (full_queue_parks_the_unit full_listener http_conn evs
                     rest (take 16 http_request) false H1 H2 H3))))).
Defined.

(** X10: the first three events of the sample schedule. *)
Lemma loop_keeps_accepting_while_open_witness :
  l_closed sample_listener = false /\
  close_called (take 3 sample_schedule) = false /\
  loop sample_listener (take 3 sample_schedule)
  = ([Spawned http_conn;
      Logged_accept_error (errorString "too many open files");
      Spawned unknown_conn], LoopAccepting).
Proof.
  assert (H1 : l_closed sample_listener = false) by reflexivity.
  assert (H2 : close_called (take 3 sample_schedule) = false)
    by reflexivity.
  exact (conj H1 (conj H2
           (loop_keeps_accepting_while_open sample_listener
              (take 3 sample_schedule) H1 H2))).
Defined.

(** X11: the events of the sample schedule after the [Close]. *)
Lemma loop_after_close_spawns_until_error_witness :
  l_closed closed_listener = true /\
  accept_failed [RawAccept short_conn] = false /\
  loop closed_listener
    ([RawAccept short_conn] ++ RawAcceptError os_ErrClosed
       :: [RawAccept failing_conn])
  = ([Spawned short_conn], LoopReturned).
Proof.
  assert (H1 : l_closed closed_listener = true) by reflexivity.
  assert (H2 : accept_failed [RawAccept short_conn] = false)
    by reflexivity.
  exact (conj H1 (conj H2
           (proj1 (loop_after_close_spawns_until_error closed_listener
                     [RawAccept short_conn] os_ErrClosed
                     [RawAccept failing_conn] H1 H2)))).
Defined.

(** X12: the sample schedule ends the loop. *)
Lemma loop_returns_iff_witness :
  (loop sample_listener sample_schedule).2 = LoopReturned.
Proof.
  apply (proj2 (loop_returns_iff sample_listener sample_schedule)).
  exists (take 5 sample_schedule), os_ErrClosed, [RawAccept failing_conn].
  split; reflexivity.
Defined.

(** X14: the sample key with and without ["Basic "]. *)
Lemma Basic_prefix_is_optional_witness :
  HasPrefix sample_key Basic = false /\
  ServeHTTP sample_handler (connect_request (Basic ++ sample_key))
  = ServeHTTP sample_handler (connect_request sample_key).
Proof.
  assert (H1 : HasPrefix sample_key Basic = false) by reflexivity.
  exact (conj H1
           (Basic_prefix_is_optional sample_handler (connect_request [])
              sample_key H1)).
Defined.

(** X16: a websocket client that sends five bytes and closes. *)
Lemma websocket_short_header_is_logged_witness :
  let c := sample_conn (map one_byte [x47; x45; x54; x20; x2f]) in
  let req := websocket_request (c_reads c) in
  r_Upgrade req = inl c /\
  length (conn_stream (c_reads c)) < HeaderLen + 2 /\
  ServeHTTP sample_handler req
  = (hlog sample_handler (Error_read_header io_ErrUnexpectedEOF),
     Some (Conn_Close (set_reads c [])), Served None).
Proof.
  intros c req.
  assert (H1 : h_Connect sample_handler
               && bool_decide (r_Method req = "CONNECT"%string) = false)
    by reflexivity.
  assert (H2 : h_WebSocket sample_handler && r_IsWebSocketUpgrade req = true)
    by reflexivity.
  assert (H3 : r_Upgrade req = inl c) by reflexivity.
  assert (H4 : Forall (fun r => rr_err r = None) (c_reads c))
    by (repeat constructor).
  assert (H5 : length (conn_stream (c_reads c)) < HeaderLen + 2)
    by by_decide.
  exact (conj H3 (conj H5
           (websocket_short_header_is_logged sample_handler req c
              H1 H2 H3 H4 H5))).
Defined.

(** X17: the sample key over a websocket whose first read returns zero
    bytes: the key is found and the 18 bytes of payload are counted. *)
Lemma websocket_key_is_stream_prefix_witness :
  let evs := zero_read :: map one_byte (sample_key ++ [x0d]) in
  let rest := map one_byte (x01 :: http_request) in
  let c := sample_conn (evs ++ one_byte x0a :: rest) in
  let req := websocket_request (c_reads c) in
  take HeaderLen (conn_stream (c_reads c)) = sample_key /\
  h_upstream (ServeHTTP sample_handler req).1.1 !! sample_key
  = Some (18%Z, 0%Z).
Proof.
  intros evs rest c req.
  assert (H1 : h_Connect sample_handler
               && bool_decide (r_Method req = "CONNECT"%string) = false)
    by reflexivity.
  assert (H2 : h_WebSocket sample_handler && r_IsWebSocketUpgrade req = true)
    by reflexivity.
  assert (H3 : r_Upgrade req = inl c) by reflexivity.
  assert (H4 : c_reads c = evs ++ one_byte x0a :: rest) by reflexivity.
  assert (H5 : Forall (fun r => rr_err r = None) evs).
  { constructor; [done|].
    change (map one_byte (sample_key ++ [x0d]))
      with (one_byte <$> (sample_key ++ [x0d])).
    apply Forall_fmap, Forall_true. done. }
  assert (H6 : length (conn_stream evs) = HeaderLen + 1) by reflexivity.
  split; [reflexivity|].
  rewrite (websocket_key_is_stream_prefix sample_handler req c evs x0a rest
             H1 H2 H3 H4 H5 H6).
  vm_compute. reflexivity.
Defined.

(** X18: the sample key in an HTTP/2 CONNECT: relayed when the response
    writer flushes; with a verbose handler and a writer that does not, the
    panic comes with the verbose entry logged and the body unread. *)
Lemma validated_CONNECT_is_relayed_or_panics_witness :
  let req := connect_request (Basic ++ sample_key) in
  let verbose : Handler (gmap gostring (Z * Z)) unit :=
    mkHandler "" true true true sample_ledger tt [] in
  let plain :=
    mkRequest "CONNECT" 2 (Basic ++ sample_key) "198.51.100.7:40000"
      (r_Body req) false (r_Upgrade req) false in
  TrimPrefix (r_ProxyAuthorization req) Basic = sample_key /\
  (ServeHTTP sample_handler req).2 = Served None /\
  ServeHTTP verbose plain
  = (hlog verbose (Info_handle_http 2 "198.51.100.7:40000"), None,
     ServePanicked).
Proof.
  intros req verbose plain.
  assert (H1 : h_Connect sample_handler = true) by reflexivity.
  assert (H2 : r_Method req = "CONNECT"%string) by reflexivity.
  assert (H3 : r_ProtoMajor req <> 1%Z) by discriminate.
  assert (H4 : length (TrimPrefix (r_ProxyAuthorization req) Basic)
               = HeaderLen) by reflexivity.
  assert (H5 : Validate (h_upstream sample_handler)
                 (TrimPrefix (r_ProxyAuthorization req) Basic) = true)
    by (vm_compute; reflexivity).
  split; [reflexivity|]. split.
  - pose proof (validated_CONNECT_is_relayed_or_panics sample_handler req
                  H1 H2 H3 H4 H5) as H.
    change (w_Flusher req) with true in H. cbv zeta in H.
    destruct H as (nr & nw & err & body & _ & _ & Hend & _). exact Hend.
  - assert (H6 : r_ProtoMajor plain <> 1%Z) by discriminate.
    assert (H7 : Validate (h_upstream verbose)
                   (TrimPrefix (r_ProxyAuthorization plain) Basic) = true)
      by (vm_compute; reflexivity).
    pose proof (validated_CONNECT_is_relayed_or_panics verbose plain
                  eq_refl eq_refl H6 eq_refl H7) as H.
    change (w_Flusher plain) with false in H. cbv zeta in H.
    exact (proj1 H).
Defined.

(** X20: adding the password ["secret"] to the sample ledger. *)
Lemma app_admin_ledger_effect_witness :
  let r := mkAdminRequest "POST" (inl secret) in
  AppAdmin.upstream sample_admin = Some sample_ledger /\
  sample_Unmarshal secret = inl secret /\
  AppAdmin.AddUser sample_Unmarshal sample_admin r
  = (AppAdmin.mkAdmin (Some (AppAdmin.Add sample_ledger secret)),
     mkAdminResponse (Some StatusOK) None, None).
Proof.
  intros r.
  assert (H1 : AppAdmin.upstream sample_admin = Some sample_ledger)
    by reflexivity.
  assert (H2 : a_Body r = inl secret) by reflexivity.
  assert (H3 : sample_Unmarshal secret = inl secret) by reflexivity.
  split; [exact H1|]. split; [exact H3|].
  exact (proj1 (app_admin_ledger_effect sample_Unmarshal sample_admin
                  sample_ledger r secret secret H1 H2 H3) eq_refl).
Defined.

(** X21: a body with the sample key and a password adds the key only. *)
Lemma trojan_admin_key_takes_precedence_witness :
  let decode := fun b => inl (TrojanAdmin.mkUser b sample_key) in
  let r := mkAdminRequest "POST" (inl secret) in
  TrojanAdmin.Password (TrojanAdmin.mkUser secret sample_key) <> [] /\
  TrojanAdmin.AddUser decode (TrojanAdmin.mkAdmin (∅ : gmap gostring (Z * Z))) r
  = (TrojanAdmin.mkAdmin (TrojanAdmin.AddKey ∅ sample_key),
     mkAdminResponse (Some StatusOK) None, None).
Proof.
  intros decode r. split; [discriminate|].
  assert (H1 : a_Body r = inl secret) by reflexivity.
  assert (H2 : decode secret = inl (TrojanAdmin.mkUser secret sample_key))
    by reflexivity.
  assert (H3 : TrojanAdmin.Key (TrojanAdmin.mkUser secret sample_key) <> [])
    by discriminate.
  exact (proj1 (trojan_admin_key_takes_precedence decode
                  (TrojanAdmin.mkAdmin ∅) r secret
                  (TrojanAdmin.mkUser secret sample_key) H1 H2 H3) eq_refl).
Defined.


(** X24: ["secret"] is deleted, and a connection with its key falls
    back. *)
Lemma deleted_password_falls_back_witness :
  let up := AppAdmin.Add sample_ledger secret in
  let r := mkAdminRequest "DELETE" (inl secret) in
  let hdr := sample_hash secret ++ [x0d; x0a] in
  let rest := map one_byte (x01 :: http_request) in
  let l := set_Upstream sample_listener (AppAdmin.Delete up secret) in
  let c := sample_conn (map one_byte hdr ++ rest) in
  Validate up (ByteSliceToString (take HeaderLen hdr)) = true /\
  Validate (AppAdmin.Delete up secret)
    (ByteSliceToString (take HeaderLen hdr)) = false /\
  loop_conn l c = select_closed_or_send l (set_reads c rest) hdr.
Proof.
  intros up r hdr rest l c.
  assert (H1 : Validate (AppAdmin.Delete up secret)
                 (ByteSliceToString (take HeaderLen hdr)) = false)
    by (vm_compute; reflexivity).
  assert (H2 : x0a ∉ take (HeaderLen + 1) hdr) by by_decide.
  split; [vm_compute; reflexivity|]. split; [exact H1|].
  exact (proj1 (deleted_password_falls_back sample_Unmarshal
                  (AppAdmin.mkAdmin (Some up)) up r secret secret l c hdr rest
                  eq_refl eq_refl eq_refl eq_refl ltac:(discriminate) H1
                  eq_refl eq_refl eq_refl H2)).
Defined.
